(** * DocumentationDemoFormValidation.vue: the signup form's validation
      schema and its submission handler.

    The component's script block builds a zod schema, wraps it with
    [toTypedSchema], opens a vee-validate form context on it with
    [useForm] and registers one asynchronous submission callback through
    [handleSubmit].  The development below embeds

    - the JavaScript values a form can hold ([value]);
    - the part of zod (version 3) the schema is written with: the schema
      classes as data ([ZodType]), their builder methods, and [_parse],
      which follows the [_parse] method of each class (status valid,
      dirty or aborted; issues pushed on the shared context in program
      order);
    - [toTypedSchema] of @vee-validate/zod and [handleSubmit] of
      vee-validate, as far as the component uses them;
    - the component itself: [validationSchema], [initialValues],
      [loading] and the callback of [handleSignup], whose [await] is a
      suspension point of the page's event loop.

    zod, vee-validate and vue-scrollto are third-party libraries: their
    behaviour is taken from the libraries, the component's own
    definitions from its script block. *)

From Stdlib Require Import ZArith Ascii.
From stdpp Require Import gmap strings list fin_maps pretty relations.

#[local] Set Warnings "-register-all".
Open Scope string_scope.
Open Scope list_scope.

(** ** JavaScript values *)

(** The values that can sit in the form state.  Numbers are kept to
    integers (no field of the form is numeric); a [Date] carries its time
    value in milliseconds, [None] being the invalid date whose [getTime()]
    is [NaN].  The length of a string is its number of code units. *)
Inductive value : Type :=
| VUndefined
| VNull
| VBool (b : bool)
| VNumber (n : Z)
| VString (s : string)
| VDate (t : option Z)
| VArray (items : list value)
| VObject (props : list (string * value)).

(** [data[key]]: [undefined] when the object has no such property. *)
Fixpoint prop_get (props : list (string * value)) (key : string) : value :=
  match props with
  | [] => VUndefined
  | (k, v) :: rest => if String.eqb k key then v else prop_get rest key
  end.

(** [key in data] *)
Fixpoint prop_in (props : list (string * value)) (key : string) : bool :=
  match props with
  | [] => false
  | (k, _) :: rest => String.eqb k key || prop_in rest key
  end.

Definition get (data : value) (key : string) : value :=
  match data with
  | VObject props => prop_get props key
  | _ => VUndefined
  end.

(** [a === b].  Primitives compare by content.  Two dates, arrays or
    objects compare by identity, which the value model does not carry;
    they are taken to be distinct objects. *)
Definition strict_eq (a b : value) : bool :=
  match a, b with
  | VUndefined, VUndefined => true
  | VNull, VNull => true
  | VBool x, VBool y => Bool.eqb x y
  | VNumber x, VNumber y => Z.eqb x y
  | VString x, VString y => String.eqb x y
  | _, _ => false
  end.

(** Truthiness, as [if (v)] and [!v] see a value. *)
Definition truthy (v : value) : bool :=
  match v with
  | VUndefined | VNull => false
  | VBool b => b
  | VNumber n => negb (Z.eqb n 0)
  | VString s => negb (String.eqb s "")
  | VDate _ | VArray _ | VObject _ => true
  end.

(** ** zod: parsed types, issues, parse status *)

Inductive ZodParsedType :=
| PT_string | PT_number | PT_boolean | PT_date
| PT_undefined | PT_null | PT_array | PT_object.

Definition getParsedType (data : value) : ZodParsedType :=
  match data with
  | VUndefined => PT_undefined
  | VNull => PT_null
  | VBool _ => PT_boolean
  | VNumber _ => PT_number
  | VString _ => PT_string
  | VDate _ => PT_date
  | VArray _ => PT_array
  | VObject _ => PT_object
  end.

Definition parsedType_name (t : ZodParsedType) : string :=
  match t with
  | PT_string => "string" | PT_number => "number"
  | PT_boolean => "boolean" | PT_date => "date"
  | PT_undefined => "undefined" | PT_null => "null"
  | PT_array => "array" | PT_object => "object"
  end.

Inductive ZodIssueCode :=
| invalid_type | invalid_date | invalid_string | too_small | too_big | custom.

Inductive PathElem :=
| PKey (key : string)
| PIdx (index : nat).

Record ZodIssue := {
  code : ZodIssueCode;
  path : list PathElem;
  message : string
}.

(** The three outcomes of a [_parse]: [INVALID] is status "aborted" (no
    value), [DIRTY v] is status "dirty", [OK v] is status "valid". *)
Inductive ParseReturn :=
| INVALID
| DIRTY (v : value)
| OK (v : value).

(** A [_parse] call yields its outcome and the issues it pushed on
    [ctx.common.issues], oldest first. *)
Definition ParseOut : Type := ParseReturn * list ZodIssue.

Definition isAborted (r : ParseReturn) : bool :=
  match r with INVALID => true | _ => false end.
Definition isDirty (r : ParseReturn) : bool :=
  match r with DIRTY _ => true | _ => false end.
Definition isValid (r : ParseReturn) : bool :=
  match r with OK _ => true | _ => false end.

(** The value an outcome carries ([undefined] for an aborted one). *)
Definition out_value (r : ParseReturn) : value :=
  match r with
  | OK v | DIRTY v => v
  | INVALID => VUndefined
  end.

(** The options object of [zod.string({...})], [zod.date({...})]. *)
Record RawCreateParams := {
  required_error : option string;
  invalid_type_error : option string
}.

Definition no_params : RawCreateParams :=
  {| required_error := None; invalid_type_error := None |}.

(** Message of an [invalid_type] issue: the schema's own error map first
    ([required_error] when the data is [undefined], [invalid_type_error]
    otherwise), the default map's text when the schema gives none. *)
Definition invalid_type_message (params : RawCreateParams)
    (expected received : ZodParsedType) : string :=
  match received with
  | PT_undefined => default "Required" (required_error params)
  | _ => default ("Expected " +:+ parsedType_name expected +:+ ", received "
                    +:+ parsedType_name received)
                 (invalid_type_error params)
  end.

Definition invalid_type_issue (params : RawCreateParams)
    (expected : ZodParsedType) (p : list PathElem) (data : value) : ParseOut :=
  (INVALID,
   [{| code := invalid_type; path := p;
       message := invalid_type_message params expected (getParsedType data) |}]).

(** ** zod: the schema classes *)

Inductive StringCheck :=
| CkMin (value : nat) (message : string)
| CkEmail (message : string).

Record ZodString := {
  s_checks : list StringCheck;
  s_params : RawCreateParams
}.

Inductive DateCheck :=
| CkDateMax (value : Z) (message : string).

Record ZodDate := {
  d_checks : list DateCheck;
  d_params : RawCreateParams
}.

Inductive ZodType :=
| TString (def : ZodString)
| TBoolean (params : RawCreateParams)
| TDate (def : ZodDate)
| TNullable (innerType : ZodType)
| TArray (type : ZodType) (minLength maxLength : option (nat * string))
         (params : RawCreateParams)
| TObject (shape : list (string * ZodType))
| TEffects (schema : ZodType) (check : value → bool)
           (message : string) (path : list PathElem).

Record ZodArray := {
  a_type : ZodType;
  a_minLength : option (nat * string);
  a_maxLength : option (nat * string);
  a_params : RawCreateParams
}.

Coercion TString : ZodString >-> ZodType.
Coercion TDate : ZodDate >-> ZodType.
Definition ZodArray_type (a : ZodArray) : ZodType :=
  TArray (a_type a) (a_minLength a) (a_maxLength a) (a_params a).
Coercion ZodArray_type : ZodArray >-> ZodType.

(** The second argument of [.refine] in its object form. *)
Record RefineParams := {
  r_message : string;
  r_path : list PathElem
}.

(** Method chaining: [x |> f] is [x.f]. *)
Notation "x |> f" := (f x) (at level 68, left associativity, only parsing).

Module zod.
Definition object (shape : list (string * ZodType)) : ZodType := TObject shape.
Definition boolean : ZodType := TBoolean no_params.
Definition date (params : RawCreateParams) : ZodDate :=
  {| d_checks := []; d_params := params |}.
Definition string (params : RawCreateParams) : ZodString :=
  {| s_checks := []; s_params := params |}.
End zod.

(** The methods of [ZodString]: [.email(message)], [.min(n, message)] *)
Module str.
Definition email (message : string) (s : ZodString) : ZodString :=
  {| s_checks := s_checks s ++ [CkEmail message]; s_params := s_params s |}.
Definition min (n : nat) (message : string) (s : ZodString) : ZodString :=
  {| s_checks := s_checks s ++ [CkMin n message]; s_params := s_params s |}.
End str.

(** The method of [ZodDate]: [.max(date, message)] *)
Module date.
Definition max (maxDate : Z) (message : string) (d : ZodDate) : ZodDate :=
  {| d_checks := d_checks d ++ [CkDateMax maxDate message];
     d_params := d_params d |}.
End date.

(** The methods of [ZodArray]: [.min(n, message)], [.max(n, message)] *)
Module arr.
Definition min (n : nat) (message : string) (a : ZodArray) : ZodArray :=
  {| a_type := a_type a; a_minLength := Some (n, message);
     a_maxLength := a_maxLength a; a_params := a_params a |}.
Definition max (n : nat) (message : string) (a : ZodArray) : ZodArray :=
  {| a_type := a_type a; a_minLength := a_minLength a;
     a_maxLength := Some (n, message); a_params := a_params a |}.
End arr.

(** The creation parameters a schema hands on when [.array()] wraps it
    ([ZodArray.create(this, this._def)]). *)
Definition params_of (t : ZodType) : RawCreateParams :=
  match t with
  | TString def => s_params def
  | TDate def => d_params def
  | TBoolean params => params
  | TArray _ _ _ params => params
  | TNullable _ | TObject _ | TEffects _ _ _ _ => no_params
  end.

(** The methods of every schema: [.nullable()], [.array()],
    [.refine(check, message)] and [.refine(check, {message, path})] *)
Definition nullable (t : ZodType) : ZodType := TNullable t.
Definition array (t : ZodType) : ZodArray :=
  {| a_type := t; a_minLength := None; a_maxLength := None;
     a_params := params_of t |}.
Definition refine (check : value → bool) (message : string) (t : ZodType)
  : ZodType := TEffects t check message [].
Definition refine_at (check : value → bool) (params : RefineParams)
    (t : ZodType) : ZodType :=
  TEffects t check (r_message params) (r_path params).

(** ** zod: parsing *)

(** [finalObject[key] = v] *)
Fixpoint prop_set (props : list (string * value)) (key : string) (v : value)
  : list (string * value) :=
  match props with
  | [] => [(key, v)]
  | (k, x) :: rest =>
      if String.eqb k key then (k, v) :: rest else (k, x) :: prop_set rest key v
  end.

(** [ParseStatus.mergeArray]: aborted as soon as one element is, dirty
    when one is dirty, and the array of the parsed elements. *)
Fixpoint mergeArray (dirty : bool) (results : list ParseReturn)
    (arrayValue : list value) : ParseReturn :=
  match results with
  | [] => if dirty then DIRTY (VArray arrayValue) else OK (VArray arrayValue)
  | INVALID :: _ => INVALID
  | DIRTY v :: rest => mergeArray true rest (arrayValue ++ [v])
  | OK v :: rest => mergeArray dirty rest (arrayValue ++ [v])
  end.

(** [ParseStatus.mergeObjectSync]: a pair is the key, the outcome of the
    key's schema and [alwaysSet] ([key in data]).  A parsed [undefined] is
    kept in the result only when the key was present in the input. *)
Definition setFinal (finalObject : list (string * value)) (key : string)
    (v : value) (alwaysSet : bool) : list (string * value) :=
  match v with
  | VUndefined => if alwaysSet then prop_set finalObject key v else finalObject
  | _ => prop_set finalObject key v
  end.

Fixpoint mergeObjectSync (dirty : bool)
    (pairs : list (string * ParseReturn * bool))
    (finalObject : list (string * value)) : ParseReturn :=
  match pairs with
  | [] => if dirty then DIRTY (VObject finalObject) else OK (VObject finalObject)
  | (_, INVALID, _) :: _ => INVALID
  | (key, DIRTY v, alwaysSet) :: rest =>
      mergeObjectSync true rest (setFinal finalObject key v alwaysSet)
  | (key, OK v, alwaysSet) :: rest =>
      mergeObjectSync dirty rest (setFinal finalObject key v alwaysSet)
  end.

(** The issue of a length bound of [ZodArray], when the bound is set and
    broken. *)
Definition minLength_issue (p : list PathElem) (len : nat)
    (bound : option (nat * string)) : list ZodIssue :=
  match bound with
  | Some (n, msg) =>
      if (len <? n)%nat then [{| code := too_small; path := p; message := msg |}] else []
  | None => []
  end.

Definition maxLength_issue (p : list PathElem) (len : nat)
    (bound : option (nat * string)) : list ZodIssue :=
  match bound with
  | Some (n, msg) =>
      if (n <? len)%nat then [{| code := too_big; path := p; message := msg |}] else []
  | None => []
  end.

(** [ZodDate._parse], the loop over the checks: [getTime() > check.value]. *)
Definition date_check_issue (p : list PathElem) (t : Z) (c : DateCheck)
  : option ZodIssue :=
  match c with
  | CkDateMax bound msg =>
      if (bound <? t)%Z
      then Some {| code := too_big; path := p; message := msg |} else None
  end.

Definition withStatus (v : value) (issues : list ZodIssue) : ParseOut :=
  (match issues with [] => OK v | _ => DIRTY v end, issues).

Section Parsing.
(** The email pattern of the installed zod ([emailRegex.test]). *)
Variable is_email : string → bool.

(** [ZodString._parse], the loop over the checks: every check runs, a
    broken one pushes its issue and makes the status dirty. *)
Definition string_check_issue (p : list PathElem) (s : string)
    (c : StringCheck) : option ZodIssue :=
  match c with
  | CkMin n msg =>
      if (String.length s <? n)%nat
      then Some {| code := too_small; path := p; message := msg |} else None
  | CkEmail msg =>
      if is_email s then None
      else Some {| code := invalid_string; path := p; message := msg |}
  end.

Fixpoint _parse (t : ZodType) (p : list PathElem) (data : value) {struct t}
  : ParseOut :=
  match t with
  | TString def =>
      match data with
      | VString s => withStatus data (omap (string_check_issue p s) (s_checks def))
      | _ => invalid_type_issue (s_params def) PT_string p data
      end
  | TBoolean params =>
      match data with
      | VBool _ => (OK data, [])
      | _ => invalid_type_issue params PT_boolean p data
      end
  | TDate def =>
      match data with
      | VDate None =>
          (INVALID, [{| code := invalid_date; path := p; message := "Invalid date" |}])
      | VDate (Some t) => withStatus data (omap (date_check_issue p t) (d_checks def))
      | _ => invalid_type_issue (d_params def) PT_date p data
      end
  | TNullable innerType =>
      match data with
      | VNull => (OK VNull, [])
      | _ => _parse innerType p data
      end
  | TArray type minLength maxLength params =>
      match data with
      | VArray items =>
          let bounds := minLength_issue p (length items) minLength
                        ++ maxLength_issue p (length items) maxLength in
          let results :=
            imap (λ i item, _parse type (p ++ [PIdx i]) item) items in
          (mergeArray (bool_decide (bounds ≠ [])) (results.*1) [],
           bounds ++ concat (results.*2))
      | _ => invalid_type_issue params PT_array p data
      end
  | TObject shape =>
      match data with
      | VObject props =>
          let results :=
            map (λ kt : string * ZodType,
                   (kt.1, _parse kt.2 (p ++ [PKey kt.1]) (prop_get props kt.1)))
                shape in
          (mergeObjectSync false
             (map (λ kr : string * ParseOut,
                     (kr.1, kr.2.1, prop_in props kr.1)) results) [],
           concat (map (λ kr : string * ParseOut, kr.2.2) results))
      | _ => invalid_type_issue no_params PT_object p data
      end
  | TEffects schema check message ipath =>
      let inner := _parse schema p data in
      match inner.1 with
      | INVALID => (INVALID, inner.2)
      | DIRTY v =>
          (DIRTY v,
           inner.2 ++ if check v then []
                      else [{| code := custom; path := p ++ ipath; message := message |}])
      | OK v =>
          if check v then (OK v, inner.2)
          else (DIRTY v,
                inner.2 ++ [{| code := custom; path := p ++ ipath; message := message |}])
      end
  end.
End Parsing.

(** [schema.safeParse(data)]: success only on status "valid".  (zod
    throws when a parse is not valid and has pushed no issue; by
    [_parse_valid_iff_no_issues] below that does not happen.) *)
Inductive SafeParseReturn :=
| SafeParseSuccess (data : value)
| SafeParseError (issues : list ZodIssue).

Definition safeParse (is_email : string → bool) (t : ZodType) (data : value)
  : SafeParseReturn :=
  match _parse is_email t [] data with
  | (OK v, _) => SafeParseSuccess v
  | (_, issues) => SafeParseError issues
  end.

(** ** @vee-validate/zod: [toTypedSchema] *)

(** The form path of an issue, [normalizeFormPath(issue.path.join('.'))]:
    keys are joined with dots and an index is written in brackets.  (The
    library works on the joined string; the two agree for keys that hold
    no dot and are not numerals, as all keys of this form are.) *)
Definition path_segment (e : PathElem) : string :=
  match e with
  | PKey k => "." +:+ k
  | PIdx i => "[" +:+ pretty i +:+ "]"
  end.

Definition form_path (p : list PathElem) : string :=
  match p with
  | [] => ""
  | PKey k :: rest => foldl (λ acc e, acc +:+ path_segment e) k rest
  | PIdx i :: rest => foldl (λ acc e, acc +:+ path_segment e) (pretty i) rest
  end.

(** [processIssues]: the messages of the issues, grouped by form path, in
    the order of the issues. *)
Definition processIssues (issues : list ZodIssue) : gmap string (list string) :=
  foldl (λ errors issue,
           let path := form_path (path issue) in
           <[path := default [] (errors !! path) ++ [message issue]]> errors)
        ∅ issues.

(** What [parse] of a typed schema resolves to: the parsed value and no
    error, or the errors by path. *)
Record TypedSchemaResult := {
  ts_value : option value;
  ts_errors : gmap string (list string)
}.

Record TypedSchema := { ts_parse : value → TypedSchemaResult }.

Definition toTypedSchema (is_email : string → bool) (zodSchema : ZodType)
  : TypedSchema :=
  {| ts_parse := λ values,
       match safeParse is_email zodSchema values with
       | SafeParseSuccess data => {| ts_value := Some data; ts_errors := ∅ |}
       | SafeParseError issues =>
           {| ts_value := None; ts_errors := processIssues issues |}
       end |}.

(** ** The event loop the component runs in *)

(** Modelled from the spec: [sleep] (utils/sleep) and [useNotyf]
    (composable/useNotyf) are not among the sources.  [sleep(ms)] is the
    simulated delay of the spec, a promise that a timer of [ms]
    milliseconds resolves; [notyf.success(m)] shows the notification
    [m].  An event records one call the submission callback makes to a
    collaborator, as it is observed from outside. *)
Inductive Event :=
| Sleep (ms : Z)
| SetFieldError (field message : string)
| ScrollTo (selector : string)
| NotyfSuccess (message : string).

(** An [async] function body: reads and writes of the [loading] ref,
    calls, and [await sleep(ms)], after which the rest of the body is a
    continuation the timer resumes. *)
Inductive Async :=
| Return
| GetLoading (k : bool → Async)
| SetLoading (b : bool) (k : Async)
| SetFieldError_ (field message : string) (k : Async)
| ScrollTo_ (selector : string) (k : Async)
| NotyfSuccess_ (message : string) (k : Async)
| AwaitSleep (ms : Z) (k : Async).

(** The state of the page: the form context (values and errors by
    path), the [loading] ref, the calls observed so far and the pending
    timers with the continuations they will resume. *)
Record World := {
  values : value;
  errors : gmap string (list string);
  loading : bool;
  log : list Event;
  timers : list (Z * Async)
}.

Definition with_values (v : value) (w : World) : World :=
  {| values := v; errors := errors w; loading := loading w;
     log := log w; timers := timers w |}.
Definition with_errors (e : gmap string (list string)) (w : World) : World :=
  {| values := values w; errors := e; loading := loading w;
     log := log w; timers := timers w |}.
Definition with_loading (b : bool) (w : World) : World :=
  {| values := values w; errors := errors w; loading := b;
     log := log w; timers := timers w |}.
Definition with_timers (t : list (Z * Async)) (w : World) : World :=
  {| values := values w; errors := errors w; loading := loading w;
     log := log w; timers := t |}.
Definition emit (e : Event) (w : World) : World :=
  {| values := values w; errors := errors w; loading := loading w;
     log := log w ++ [e]; timers := timers w |}.

(** Runs a body up to its end or its next [await]; an [await sleep(ms)]
    starts the timer and parks the continuation.  [setFieldError(f, m)]
    replaces the errors of field [f] by [[m]]. *)
Fixpoint run (a : Async) (w : World) : World :=
  match a with
  | Return => w
  | GetLoading k => run (k (loading w)) w
  | SetLoading b k => run k (with_loading b w)
  | SetFieldError_ f m k =>
      run k (emit (SetFieldError f m) (with_errors (<[f := [m]]> (errors w)) w))
  | ScrollTo_ sel k => run k (emit (ScrollTo sel) w)
  | NotyfSuccess_ m k => run k (emit (NotyfSuccess m) w)
  | AwaitSleep ms k => with_timers (timers w ++ [(ms, k)]) (emit (Sleep ms) w)
  end.

(** ** vee-validate: [handleSubmit] *)

(** The handler [handleSubmit(fn)] returns: it validates the form values
    against the schema, stores the errors of every path, and calls [fn]
    with the parsed values when (and only when) the result is valid, that
    is when the schema reported no error. *)
Definition handleSubmit (validationSchema : TypedSchema) (fn : value → Async)
    (w : World) : World :=
  let result := ts_parse validationSchema (values w) in
  let w' := with_errors (ts_errors result) w in
  if bool_decide (ts_errors result = ∅)
  then run (fn (default (values w) (ts_value result))) w'
  else w'.

(** ** A concrete email pattern *)

(** An email test of the shape of zod's [emailRegex], to run the schema
    on concrete inputs: a local part of letters, digits and [_'+-.] that
    neither starts with a dot, nor holds two dots in a row, nor ends in a
    dot or a quote; one [@]; a domain of dot-separated labels (a letter
    or digit, then letters, digits and hyphens) closed by a top-level
    label of two letters or more.  The properties of the component are
    proved for any email test. *)
Definition is_digit (c : ascii) : bool :=
  let n := nat_of_ascii c in (48 <=? n)%nat && (n <=? 57)%nat.
Definition is_letter (c : ascii) : bool :=
  let n := nat_of_ascii c in
  ((65 <=? n)%nat && (n <=? 90)%nat) || ((97 <=? n)%nat && (n <=? 122)%nat).
Definition is_one_of (set : string) (c : ascii) : bool :=
  existsb (Ascii.eqb c) (String.list_ascii_of_string set).

Fixpoint split_on (sep : ascii) (l : list ascii) : list (list ascii) :=
  match l with
  | [] => [[]]
  | c :: rest =>
      if Ascii.eqb c sep then [] :: split_on sep rest
      else match split_on sep rest with
           | h :: t => (c :: h) :: t
           | [] => [[c]]
           end
  end.

Fixpoint has_double_dot (l : list ascii) : bool :=
  match l with
  | c :: (d :: _) as rest =>
      (Ascii.eqb c "."%char && Ascii.eqb d "."%char) || has_double_dot rest
  | _ => false
  end.

Definition local_part_ok (l : list ascii) : bool :=
  match reverse l with
  | last :: _ =>
      (is_letter last || is_digit last || is_one_of "_+-" last)
      && forallb (λ c, is_letter c || is_digit c || is_one_of "_'+-." c) l
      && negb (match l with c :: _ => Ascii.eqb c "."%char | [] => false end)
      && negb (has_double_dot l)
  | [] => false
  end.

Definition label_ok (l : list ascii) : bool :=
  match l with
  | c :: rest =>
      (is_letter c || is_digit c)
      && forallb (λ c, is_letter c || is_digit c || is_one_of "-" c) rest
  | [] => false
  end.

Definition domain_ok (l : list ascii) : bool :=
  match reverse (split_on "."%char l) with
  | tld :: (_ :: _) as labels =>
      (2 <=? length tld)%nat && forallb is_letter tld && forallb label_ok labels
  | _ => false
  end.

Definition emailRegex_test (s : string) : bool :=
  match split_on "@"%char (String.list_ascii_of_string s) with
  | [local; domain] => local_part_ok local && domain_ok domain
  | _ => false
  end.

(** ** The input type of the form *)

(** The values the schema takes without a type error: an object whose
    [email], [password] and [passwordCheck] are strings, whose
    [birthdate] is [null] or a valid date, whose [agreeTerms] and
    [emailOptin] are booleans and whose [interests] is an array of
    strings. *)
Definition is_string (v : value) : bool :=
  match v with VString _ => true | _ => false end.
Definition is_boolean (v : value) : bool :=
  match v with VBool _ => true | _ => false end.

Definition has_declared_types (data : value) : bool :=
  match data with
  | VObject props =>
      is_string (prop_get props "email")
      && is_string (prop_get props "password")
      && is_string (prop_get props "passwordCheck")
      && match prop_get props "birthdate" with
         | VNull | VDate (Some _) => true
         | _ => false
         end
      && is_boolean (prop_get props "agreeTerms")
      && match prop_get props "interests" with
         | VArray items => forallb is_string items
         | _ => false
         end
      && is_boolean (prop_get props "emailOptin")
  | _ => false
  end.

(** The messages [processIssues] files under a form path. *)
Definition messages_at (k : string) (issues : list ZodIssue) : list string :=
  message <$> filter (λ i, form_path (path i) = k) issues.

(** A validation result that is a failure and files [msg] among the
    errors of [field]. *)
Definition rejects_with (r : TypedSchemaResult) (field msg : string) : Prop :=
  ts_value r = None ∧ ∃ ms, ts_errors r !! field = Some ms ∧ msg ∈ ms.

(** ** The component *)

Section Component.
(** The email pattern of the installed zod, and the value of
    [new Date()] when the script block runs. *)
Variable is_email : string → bool.
Variable now : Z.

(** The shape of the object schema, the object schema, and the schema
    handed to [toTypedSchema]: the object refined by the comparison of
    the two passwords. *)
Definition formShape : list (string * ZodType) :=
  [
    ("email",
      zod.string {| required_error := Some "Enter your email first";
                    invalid_type_error := None |}
      |> str.email "A valid email address should be provided" : ZodType);
    ("password",
      zod.string {| required_error := Some "Enter your password to sign in";
                    invalid_type_error := None |}
      |> str.min 8 "Your password should contains at least 8 characters" : ZodType);
    ("passwordCheck", zod.string no_params : ZodType);
    ("birthdate",
      (zod.date {| invalid_type_error := Some "Please enter a valid date";
                   required_error := Some "Please enter a date" |}
       |> date.max now "You cannot be born in the future" : ZodType)
      |> nullable);
    ("agreeTerms",
      zod.boolean |> refine truthy "You must agree our terms of service");
    ("interests",
      (zod.string no_params : ZodType)
      |> array
      |> arr.min 2 "You must select at least 2 terms of service"
      |> arr.max 3 "You can select up to 3 terms of service" : ZodType);
    ("emailOptin", zod.boolean)
  ].

Definition formObject : ZodType := zod.object formShape.

Definition zodSchema : ZodType :=
  formObject
  |> refine_at (λ data, strict_eq (get data "password") (get data "passwordCheck"))
       {| r_message := "The confirmation does not match the password";
          r_path := [PKey "passwordCheck"] |}.

Definition validationSchema : TypedSchema := toTypedSchema is_email zodSchema.

Definition initialValues : value :=
  VObject [
    ("email", VString "");
    ("password", VString "");
    ("passwordCheck", VString "");
    ("birthdate", VNull);
    ("interests", VArray []);
    ("agreeTerms", VBool false);
    ("emailOptin", VBool false)
  ].

(** The callback handed to [handleSubmit]. *)
Definition onSignup (values : value) : Async :=
  GetLoading (λ loading,
    if loading then Return else
    SetLoading true (
    AwaitSleep 1600 (
    if negb (strict_eq (get values "email") (VString "awesome@cssninja.io"))
    then
      SetFieldError_ "email"
        "This email is already taken! Tip: use awesome@cssninja.io" (
      ScrollTo_ "#email" (
      SetLoading false
      Return))
    else
      NotyfSuccess_ "You have successfully signed up!" (
      SetLoading false
      Return)))).

Definition handleSignup : World → World :=
  handleSubmit validationSchema onSignup.

(** [handleReset]: the form goes back to its initial values, without
    errors. *)
Definition handleReset (w : World) : World :=
  with_errors ∅ (with_values initialValues w).

(** The page when the component is mounted. *)
Definition mounted : World :=
  {| values := initialValues; errors := ∅; loading := false;
     log := []; timers := [] |}.

(** What can happen next on the page: the form is submitted or reset,
    a field is edited, a pending timer fires and its continuation is
    resumed. *)
Inductive step : World → World → Prop :=
| step_submit w : step w (handleSignup w)
| step_reset w : step w (handleReset w)
| step_input w v : step w (with_values v w)
| step_timer w ms k before after :
    timers w = before ++ (ms, k) :: after →
    step w (run k (with_timers (before ++ after) w)).

Definition reachable (w : World) : Prop := rtc step mounted w.

(** A continuation that, whenever it is resumed, ends with [loading]
    false and parks nothing. *)
Definition releases (k : Async) : Prop :=
  ∀ w, loading (run k w) = false ∧ timers (run k w) = timers w.

(** The invariant of the page: either nothing is in flight and
    [loading] is clear, or exactly one continuation is parked,
    [loading] is set and the continuation clears it. *)
Definition loading_invariant (w : World) : Prop :=
  match timers w with
  | [] => loading w = false
  | [(_, k)] => loading w = true ∧ releases k
  | _ => False
  end.

End Component.

(** Values that fill the form in well, with the email the demo accepts. *)
Definition signupValues : value :=
  VObject [
    ("email", VString "awesome@cssninja.io");
    ("password", VString "Not$3cret");
    ("passwordCheck", VString "Not$3cret");
    ("birthdate", VNull);
    ("interests", VArray [VString "Food"; VString "Home & Garden"]);
    ("agreeTerms", VBool true);
    ("emailOptin", VBool false)
  ].

(** ** The values of the form, typed *)

(** The values of a form whose fields all hold a value of their declared
    type (the input type of the schema): a birthdate is [null] or a
    valid date, the interests are strings. *)
Record SignupForm := {
  f_email : string;
  f_password : string;
  f_passwordCheck : string;
  f_birthdate : option Z;
  f_interests : list string;
  f_agreeTerms : bool;
  f_emailOptin : bool
}.

Definition birthdate_value (b : option Z) : value :=
  match b with
  | None => VNull
  | Some t => VDate (Some t)
  end.

(** The object [props] holds the values of [f] under the keys of the
    form (in any order, and whatever else it holds). *)
Definition holds (props : list (string * value)) (f : SignupForm) : Prop :=
  prop_get props "email" = VString (f_email f)
  ∧ prop_get props "password" = VString (f_password f)
  ∧ prop_get props "passwordCheck" = VString (f_passwordCheck f)
  ∧ prop_get props "birthdate" = birthdate_value (f_birthdate f)
  ∧ prop_get props "agreeTerms" = VBool (f_agreeTerms f)
  ∧ prop_get props "interests" = VArray (VString <$> f_interests f)
  ∧ prop_get props "emailOptin" = VBool (f_emailOptin f).

(** The rules of the schema, read on typed values. *)
Definition satisfies_rules (is_email : string → bool) (now : Z)
    (f : SignupForm) : bool :=
  is_email (f_email f)
  && (8 <=? String.length (f_password f))%nat
  && String.eqb (f_password f) (f_passwordCheck f)
  && match f_birthdate f with
     | None => true
     | Some t => (t <=? now)%Z
     end
  && f_agreeTerms f
  && (2 <=? length (f_interests f))%nat
  && (length (f_interests f) <=? 3)%nat.

(** The object the schema returns for accepted values: the seven keys of
    the shape, in the order of the shape. *)
Definition parsed_form (f : SignupForm) : value :=
  VObject [
    ("email", VString (f_email f));
    ("password", VString (f_password f));
    ("passwordCheck", VString (f_passwordCheck f));
    ("birthdate", birthdate_value (f_birthdate f));
    ("agreeTerms", VBool (f_agreeTerms f));
    ("interests", VArray (VString <$> f_interests f));
    ("emailOptin", VBool (f_emailOptin f))
  ].

(** The issues the rules raise on typed values, in the order of the
    shape, the comparison of the passwords last. *)
Definition rule_issues (is_email : string → bool) (now : Z) (f : SignupForm)
  : list ZodIssue :=
  (if is_email (f_email f) then []
   else [{| code := invalid_string; path := [PKey "email"];
            message := "A valid email address should be provided" |}])
  ++ (if (String.length (f_password f) <? 8)%nat
      then [{| code := too_small; path := [PKey "password"];
               message := "Your password should contains at least 8 characters" |}]
      else [])
  ++ match f_birthdate f with
     | Some t =>
         if (now <? t)%Z
         then [{| code := too_big; path := [PKey "birthdate"];
                  message := "You cannot be born in the future" |}]
         else []
     | None => []
     end
  ++ (if f_agreeTerms f then []
      else [{| code := custom; path := [PKey "agreeTerms"];
               message := "You must agree our terms of service" |}])
  ++ (if (length (f_interests f) <? 2)%nat
      then [{| code := too_small; path := [PKey "interests"];
               message := "You must select at least 2 terms of service" |}]
      else [])
  ++ (if (3 <? length (f_interests f))%nat
      then [{| code := too_big; path := [PKey "interests"];
               message := "You can select up to 3 terms of service" |}]
      else [])
  ++ (if String.eqb (f_password f) (f_passwordCheck f) then []
      else [{| code := custom; path := [PKey "passwordCheck"];
               message := "The confirmation does not match the password" |}]).

(** ** The calls of a page, round by round *)

(** The logs made of completed submissions (a sleep of 1600 ms, then
    either the success notification or the email error and the scroll),
    closed by one more sleep when a submission is in flight
    ([in_flight] true). *)
Inductive rounds : bool → list Event → Prop :=
| rounds_nil : rounds false []
| rounds_sleep l : rounds false l → rounds true (l ++ [Sleep 1600])
| rounds_success l :
    rounds true l →
    rounds false (l ++ [NotyfSuccess "You have successfully signed up!"])
| rounds_taken l :
    rounds true l →
    rounds false
      (l ++ [SetFieldError "email"
               "This email is already taken! Tip: use awesome@cssninja.io";
             ScrollTo "#email"]).

(** A parked continuation of the callback: resumed, it clears [loading],
    parks nothing and makes the calls of one of the two outcomes. *)
Definition outcome_continuation (k : Async) : Prop :=
  ∀ w,
    loading (run k w) = false ∧ timers (run k w) = timers w
    ∧ (log (run k w) = log w ++ [NotyfSuccess "You have successfully signed up!"]
       ∨ log (run k w)
         = log w ++ [SetFieldError "email"
                       "This email is already taken! Tip: use awesome@cssninja.io";
                     ScrollTo "#email"]).

(** The invariant of the log: it is made of rounds, and the only timer
    there can be is the one of the submission in flight. *)
Definition rounds_invariant (w : World) : Prop :=
  rounds (loading w) (log w)
  ∧ match timers w with
    | [] => loading w = false
    | [(_, k)] => loading w = true ∧ outcome_continuation k
    | _ => False
    end.

(** ** What the user can do while a submission is in flight *)

(** The steps of the page other than the firing of a timer: the form is
    submitted again, reset, or edited. *)
Inductive user_step (is_email : string → bool) (now : Z) : World → World → Prop :=
| user_submit w : user_step is_email now w (handleSignup is_email now w)
| user_reset w : user_step is_email now w (handleReset w)
| user_input w v : user_step is_email now w (with_values v w).

(** * Properties *)

(** ** An induction principle for schemas

    [ZodType] recurses through the list of an object's shape; the
    principle hands the induction hypothesis to every field schema. *)
Section ZodType_induction.
Variable P : ZodType → Prop.
Hypothesis case_string : ∀ def, P (TString def).
Hypothesis case_boolean : ∀ params, P (TBoolean params).
Hypothesis case_date : ∀ def, P (TDate def).
Hypothesis case_nullable : ∀ t, P t → P (TNullable t).
Hypothesis case_array : ∀ t mn mx params, P t → P (TArray t mn mx params).
Hypothesis case_object :
  ∀ shape, Forall (λ kt : string * ZodType, P kt.2) shape → P (TObject shape).
Hypothesis case_effects :
  ∀ t check msg ipath, P t → P (TEffects t check msg ipath).

Fixpoint ZodType_shape_ind (t : ZodType) : P t :=
  match t with
  | TString def => case_string def
  | TBoolean params => case_boolean params
  | TDate def => case_date def
  | TNullable t => case_nullable t (ZodType_shape_ind t)
  | TArray t mn mx params => case_array t mn mx params (ZodType_shape_ind t)
  | TObject shape =>
      case_object shape
        ((fix fields (l : list (string * ZodType))
            : Forall (λ kt : string * ZodType, P kt.2) l :=
            match l with
            | [] => List.Forall_nil _
            | kt :: rest =>
                List.Forall_cons _ kt rest (ZodType_shape_ind kt.2) (fields rest)
            end) shape)
  | TEffects t check msg ipath =>
      case_effects t check msg ipath (ZodType_shape_ind t)
  end.
End ZodType_induction.

(** ** Status and issues of a parse *)

Lemma withStatus_valid v issues :
  isValid (withStatus v issues).1 = true ↔ (withStatus v issues).2 = [].
Proof. unfold withStatus. destruct issues; simpl; split; congruence. Qed.

Lemma withStatus_not_aborted v issues : isAborted (withStatus v issues).1 = false.
Proof. unfold withStatus. by destruct issues. Qed.

Lemma mergeArray_valid dirty results acc :
  isValid (mergeArray dirty results acc) = true
  ↔ dirty = false ∧ Forall (λ r, isValid r = true) results.
Proof.
  revert dirty acc.
  induction results as [|r results IH]; intros dirty acc; simpl.
  - destruct dirty; simpl; rewrite Forall_nil; intuition congruence.
  - destruct r as [|v|v]; simpl; rewrite ?IH, Forall_cons; simpl; intuition congruence.
Qed.

Lemma mergeArray_aborted dirty results acc :
  isAborted (mergeArray dirty results acc) = true
  ↔ Exists (λ r, isAborted r = true) results.
Proof.
  revert dirty acc.
  induction results as [|r results IH]; intros dirty acc; simpl.
  - rewrite Exists_nil. destruct dirty; simpl; intuition congruence.
  - destruct r as [|v|v]; simpl; rewrite ?IH, Exists_cons; simpl; intuition congruence.
Qed.

Lemma mergeObjectSync_valid dirty pairs final :
  isValid (mergeObjectSync dirty pairs final) = true
  ↔ dirty = false
    ∧ Forall (λ kr : string * ParseReturn * bool, isValid kr.1.2 = true) pairs.
Proof.
  revert dirty final.
  induction pairs as [|[[k r] a] pairs IH]; intros dirty final; simpl.
  - destruct dirty; simpl; rewrite Forall_nil; intuition congruence.
  - destruct r as [|v|v]; simpl; rewrite ?IH, Forall_cons; simpl; intuition congruence.
Qed.

Lemma mergeObjectSync_aborted dirty pairs final :
  isAborted (mergeObjectSync dirty pairs final) = true
  ↔ Exists (λ kr : string * ParseReturn * bool, isAborted kr.1.2 = true) pairs.
Proof.
  revert dirty final.
  induction pairs as [|[[k r] a] pairs IH]; intros dirty final; simpl.
  - rewrite Exists_nil. destruct dirty; simpl; intuition congruence.
  - destruct r as [|v|v]; simpl; rewrite ?IH, Exists_cons; simpl; intuition congruence.
Qed.

Lemma Forall_imap {A B} (Q : B → Prop) (f : nat → A → B) (l : list A) :
  (∀ i x, Q (f i x)) → Forall Q (imap f l).
Proof.
  revert f. induction l as [|x l IH]; intros f Hf; simpl; constructor.
  - apply Hf.
  - apply IH. intros i y. apply Hf.
Qed.

Lemma concat_eq_nil {A} (ls : list (list A)) :
  concat ls = [] ↔ Forall (λ l, l = []) ls.
Proof.
  induction ls as [|l ls IH]; simpl.
  - split; [constructor | done].
  - rewrite Forall_cons, <- IH. split.
    + intros H. by apply app_eq_nil in H.
    + intros [-> ->]. done.
Qed.

Lemma elem_of_concat {A} (x : A) (ls : list (list A)) :
  x ∈ concat ls ↔ ∃ l, x ∈ l ∧ l ∈ ls.
Proof.
  induction ls as [|l ls IH]; simpl.
  - split; [by intros ?%elem_of_nil | by intros (l & _ & ?%elem_of_nil)].
  - rewrite elem_of_app, IH. split.
    + intros [?|(l' & ? & ?)]; [exists l | exists l']; split; try done;
        [by left | by right].
    + intros (l' & ? & [->|?]%elem_of_cons); [by left | right; eauto].
Qed.

(** Outcomes that are valid exactly when they carry no issue stay so
    when they are gathered. *)
Lemma results_valid_iff_no_issues (results : list ParseOut) :
  Forall (λ r : ParseOut, isValid r.1 = true ↔ r.2 = []) results →
  Forall (λ r, isValid r = true) (results.*1) ↔ concat (results.*2) = [].
Proof.
  intros H. rewrite concat_eq_nil, !Forall_fmap.
  induction H as [|r results Hr _ IH]; [done|].
  rewrite !Forall_cons. simpl. by rewrite Hr, IH.
Qed.

(** ** The errors of a typed schema *)

Lemma processIssues_foldl_lookup issues (acc : gmap string (list string)) k :
  foldl (λ errors issue,
           let path := form_path (path issue) in
           <[path := default [] (errors !! path) ++ [message issue]]> errors)
        acc issues !! k
  = match messages_at k issues with
    | [] => acc !! k
    | ms => Some (default [] (acc !! k) ++ ms)
    end.
Proof.
  revert acc. induction issues as [|i issues IH]; intros acc; [done|].
  simpl foldl. rewrite IH. unfold messages_at. rewrite filter_cons.
  destruct (decide (form_path (path i) = k)) as [<-|Hne].
  - rewrite fmap_cons, lookup_insert_eq.
    destruct (message <$> filter _ issues) as [|m ms]; simpl; [done|].
    by rewrite <- app_assoc.
  - by rewrite lookup_insert_ne.
Qed.

Lemma processIssues_lookup issues k :
  processIssues issues !! k
  = match messages_at k issues with [] => None | ms => Some ms end.
Proof.
  unfold processIssues. rewrite processIssues_foldl_lookup, lookup_empty.
  by destruct (messages_at k issues).
Qed.

(** An issue's message is among the errors of the issue's form path. *)
Lemma processIssues_elem issue issues :
  issue ∈ issues →
  ∃ ms, processIssues issues !! form_path (path issue) = Some ms
        ∧ message issue ∈ ms.
Proof.
  intros Hin. rewrite processIssues_lookup.
  assert (message issue ∈ messages_at (form_path (path issue)) issues) as Hm.
  { unfold messages_at. apply list_elem_of_fmap. exists issue. split; [done|].
    by apply list_elem_of_filter. }
  destruct (messages_at _ issues) as [|m ms] eqn:E.
  - by apply elem_of_nil in Hm.
  - eauto.
Qed.

Lemma processIssues_empty issues : processIssues issues = ∅ ↔ issues = [].
Proof.
  split; [|by intros ->].
  destruct issues as [|i issues]; [done|]. intros He.
  destruct (processIssues_elem i (i :: issues)) as (ms & Hl & _); [by left|].
  rewrite He, lookup_empty in Hl. done.
Qed.

(** ** The value of a parsed object *)

Lemma prop_get_set_eq final k v : prop_get (prop_set final k v) k = v.
Proof.
  induction final as [|[k' x] final IH]; simpl.
  - by rewrite String.eqb_refl.
  - destruct (String.eqb_spec k' k) as [->|Hne]; simpl.
    + by rewrite String.eqb_refl.
    + by destruct (String.eqb_spec k' k).
Qed.

Lemma prop_get_set_ne final k k' v :
  k ≠ k' → prop_get (prop_set final k v) k' = prop_get final k'.
Proof.
  intros Hne. induction final as [|[k0 x] final IH]; simpl.
  - by destruct (String.eqb_spec k k').
  - destruct (String.eqb_spec k0 k) as [->|Hne0]; simpl.
    + by destruct (String.eqb_spec k k').
    + by rewrite IH.
Qed.

Lemma prop_get_setFinal_ne final k k' v a :
  k ≠ k' → prop_get (setFinal final k v a) k' = prop_get final k'.
Proof.
  intros Hne. unfold setFinal.
  destruct v; try destruct a; auto using prop_get_set_ne.
Qed.

Lemma prop_get_setFinal_eq final k v a :
  prop_get final k = VUndefined → prop_get (setFinal final k v a) k = v.
Proof.
  intros Hk. unfold setFinal.
  destruct v; try destruct a; auto using prop_get_set_eq.
Qed.

(** A merge that is not aborted yields an object; it leaves the keys it
    does not merge as they were, and gives every merged key the value of
    its outcome. *)
Lemma mergeObjectSync_value pairs :
  ∀ dirty final,
    isAborted (mergeObjectSync dirty pairs final) = false →
    ∃ fo, out_value (mergeObjectSync dirty pairs final) = VObject fo
      ∧ (∀ k, k ∉ pairs.*1.*1 → prop_get fo k = prop_get final k)
      ∧ (NoDup (pairs.*1.*1) →
         (∀ k, k ∈ pairs.*1.*1 → prop_get final k = VUndefined) →
         ∀ k r a, (k, r, a) ∈ pairs →
           isAborted r = false ∧ prop_get fo k = out_value r).
Proof.
  induction pairs as [|[[k0 r0] a0] pairs IH]; intros dirty final Hna.
  - exists final. simpl. destruct dirty; simpl; (split; [done|]).
    all: split; [done|]; intros _ _ k r a Hin; by apply elem_of_nil in Hin.
  - assert (isAborted r0 = false) as Hr0 by (by destruct r0).
    assert (∃ dirty', mergeObjectSync dirty ((k0, r0, a0) :: pairs) final
              = mergeObjectSync dirty' pairs (setFinal final k0 (out_value r0) a0))
      as [dirty' Heq].
    { destruct r0; simpl in *; [done|eauto..]. }
    rewrite Heq in *. destruct (IH _ _ Hna) as (fo & Hfo & Hother & Hmerged).
    exists fo. split; [done|]. split.
    + intros k Hk. simpl in Hk. apply not_elem_of_cons in Hk as [Hne Hk].
      rewrite (Hother _ Hk). by apply prop_get_setFinal_ne.
    + simpl. intros [Hk0 Hnd]%NoDup_cons Hundef k r a [Heq'|Hin]%elem_of_cons.
      * injection Heq' as -> -> ->. split; [done|].
        rewrite (Hother _ Hk0). apply prop_get_setFinal_eq, Hundef. by left.
      * eapply (Hmerged Hnd); [|exact Hin].
        intros k' Hk'. rewrite prop_get_setFinal_ne.
        -- apply Hundef. by right.
        -- by intros ->.
Qed.

Section Properties.
Variable is_email : string → bool.
Variable now : Z.

(** A parse is valid exactly when it pushed no issue: every issue
    dirties or aborts the status, and nothing else does. *)
Lemma _parse_valid_iff_no_issues t :
  ∀ p data,
    isValid (_parse is_email t p data).1 = true
    ↔ (_parse is_email t p data).2 = [].
Proof.
  induction t as [def|params|def|t IH|t mn mx params IH|shape IH|t check msg ipath IH]
    using ZodType_shape_ind; intros p data; simpl.
  - destruct data; simpl; try (split; congruence). apply withStatus_valid.
  - destruct data; simpl; split; congruence.
  - destruct data as [| | | | |[t|]| |]; simpl; try (split; congruence).
    apply withStatus_valid.
  - destruct data; simpl; try apply IH. done.
  - destruct data; simpl; try (split; congruence).
    rewrite mergeArray_valid, bool_decide_eq_false.
    rewrite results_valid_iff_no_issues by (apply Forall_imap; intros; apply IH).
    split.
    + intros [Hb ->]. apply dec_stable in Hb. by rewrite Hb.
    + intros [-> ->]%app_eq_nil. split; [|done]. by intros ?.
  - destruct data; simpl; try (split; congruence).
    rewrite mergeObjectSync_valid.
    set (results := map _ shape).
    assert (Forall (λ kr : string * ParseOut,
              isValid kr.2.1 = true ↔ kr.2.2 = []) results) as Hres.
    { subst results. apply Forall_fmap. eapply Forall_impl; [exact IH|].
      simpl. intros kt Hkt. apply Hkt. }
    rewrite concat_eq_nil, !Forall_fmap.
    split.
    + intros [_ Hv]. induction Hres as [|kr rs Hkr _ IHr]; [done|].
      apply Forall_cons in Hv as [Hv1 Hv2]. constructor; [by apply Hkr | by apply IHr].
    + intros Hn. split; [done|]. induction Hres as [|kr rs Hkr _ IHr]; [done|].
      apply Forall_cons in Hn as [Hn1 Hn2]. constructor; [by apply Hkr | by apply IHr].
  - specialize (IH p data).
    destruct (_parse is_email t p data) as [[|v|v] issues]; simpl in *.
    + done.
    + destruct (check v); simpl; rewrite ?app_nil_r; [done|].
      split; [done|]. intros H. by apply app_eq_nil in H as [_ ?].
    + destruct (check v); simpl; [done|].
      split; [done|]. intros H. by apply app_eq_nil in H as [_ ?].
Qed.

(** *** Where the issues of a parse sit *)

Lemma minLength_issue_elem p len bound issue :
  issue ∈ minLength_issue p len bound →
  path issue = p ∧ ∃ n, bound = Some (n, message issue) ∧ len < n.
Proof.
  unfold minLength_issue. destruct bound as [[n msg]|]; [|by intros ?%elem_of_nil].
  destruct (Nat.ltb_spec len n); [|by intros ?%elem_of_nil].
  intros ->%list_elem_of_singleton. simpl. eauto.
Qed.

Lemma maxLength_issue_elem p len bound issue :
  issue ∈ maxLength_issue p len bound →
  path issue = p ∧ ∃ n, bound = Some (n, message issue) ∧ n < len.
Proof.
  unfold maxLength_issue. destruct bound as [[n msg]|]; [|by intros ?%elem_of_nil].
  destruct (Nat.ltb_spec n len); [|by intros ?%elem_of_nil].
  intros ->%list_elem_of_singleton. simpl. eauto.
Qed.

Lemma string_check_issue_path p s c issue :
  string_check_issue is_email p s c = Some issue → path issue = p.
Proof.
  destruct c; simpl; case_match; intros [= <-]; done.
Qed.

Lemma date_check_issue_path p t c issue :
  date_check_issue p t c = Some issue → path issue = p.
Proof.
  destruct c; simpl; case_match; intros [= <-]; done.
Qed.

Lemma invalid_type_issue_elem params expected p data issue :
  issue ∈ (invalid_type_issue params expected p data).2 →
  issue = {| code := invalid_type; path := p;
             message := invalid_type_message params expected (getParsedType data) |}.
Proof. by intros ->%list_elem_of_singleton. Qed.

(** Every issue of a parse started at path [p] lies at [p] or below. *)
Lemma _parse_issue_path t :
  ∀ p data issue,
    issue ∈ (_parse is_email t p data).2 → p `prefix_of` path issue.
Proof.
  induction t as [def|params|def|t IH|t mn mx params IH|shape IH|t check msg ipath IH]
    using ZodType_shape_ind; intros p data issue; simpl.
  - destruct data; try (by intros ->%invalid_type_issue_elem).
    unfold withStatus; simpl. intros (c & _ & Hc)%list_elem_of_omap.
    by rewrite (string_check_issue_path _ _ _ _ Hc).
  - destruct data; try (by intros ->%invalid_type_issue_elem).
    by intros ?%elem_of_nil.
  - destruct data as [| | | | |[t|]| |]; try (by intros ->%invalid_type_issue_elem).
    + unfold withStatus; simpl. intros (c & _ & Hc)%list_elem_of_omap.
      by rewrite (date_check_issue_path _ _ _ _ Hc).
    + by intros ->%list_elem_of_singleton.
  - destruct data; try apply IH. by intros ?%elem_of_nil.
  - destruct data; try (by intros ->%invalid_type_issue_elem). simpl.
    rewrite !elem_of_app.
    intros [[(-> & _)%minLength_issue_elem|(-> & _)%maxLength_issue_elem]|Hin];
      [done..|].
    apply elem_of_concat in Hin as (l & Hissue & Hl).
    apply list_elem_of_fmap in Hl as (r & -> & Hr).
    apply elem_of_lookup_imap in Hr as (i & item & -> & _).
    apply IH in Hissue. by eapply prefix_app_l.
  - destruct data; try (by intros ->%invalid_type_issue_elem). simpl.
    intros (l & Hissue & Hl)%elem_of_concat.
    apply list_elem_of_fmap in Hl as (kr & -> & Hkr).
    apply list_elem_of_fmap in Hkr as (kt & -> & Hkt).
    rewrite Forall_forall in IH. apply (IH _ Hkt) in Hissue.
    by eapply prefix_app_l.
  - specialize (IH p data issue).
    destruct (_parse is_email t p data) as [[|v|v] issues]; simpl in *; [done| |].
    + rewrite elem_of_app. intros [?|Hc]; [by apply IH|].
      destruct (check v); [by apply elem_of_nil in Hc|].
      apply list_elem_of_singleton in Hc as ->. by apply prefix_app_r.
    + destruct (check v); simpl; [done|].
      rewrite elem_of_app. intros [?|Hc]; [by apply IH|].
      apply list_elem_of_singleton in Hc as ->. by apply prefix_app_r.
Qed.

(** *** Objects, field by field *)

Lemma object_field_issue shape props p k ft issue :
  (k, ft) ∈ shape →
  issue ∈ (_parse is_email ft (p ++ [PKey k]) (prop_get props k)).2 →
  issue ∈ (_parse is_email (TObject shape) p (VObject props)).2.
Proof.
  intros Hin Hissue. simpl. apply elem_of_concat. eexists. split; [exact Hissue|].
  apply list_elem_of_fmap.
  exists (k, _parse is_email ft (p ++ [PKey k]) (prop_get props k)).
  split; [done|]. apply list_elem_of_fmap. by exists (k, ft).
Qed.

Lemma object_issue_inv shape props p issue :
  issue ∈ (_parse is_email (TObject shape) p (VObject props)).2 →
  ∃ k ft, (k, ft) ∈ shape
    ∧ issue ∈ (_parse is_email ft (p ++ [PKey k]) (prop_get props k)).2.
Proof.
  simpl. intros (l & Hissue & Hl)%elem_of_concat.
  apply list_elem_of_fmap in Hl as (kr & -> & Hkr).
  apply list_elem_of_fmap in Hkr as ([k ft] & -> & Hkt). eauto.
Qed.

Lemma object_aborted shape props p :
  isAborted (_parse is_email (TObject shape) p (VObject props)).1 = true
  ↔ ∃ k ft, (k, ft) ∈ shape
      ∧ isAborted (_parse is_email ft (p ++ [PKey k]) (prop_get props k)).1 = true.
Proof.
  simpl. rewrite mergeObjectSync_aborted, Exists_exists. split.
  - intros (kra & Hin & Ha).
    apply list_elem_of_fmap in Hin as (kr & -> & Hkr).
    apply list_elem_of_fmap in Hkr as ([k ft] & -> & Hkt). eauto.
  - intros (k & ft & Hin & Ha).
    exists (k, (_parse is_email ft (p ++ [PKey k]) (prop_get props k)).1,
            prop_in props k).
    split; [|exact Ha]. apply list_elem_of_fmap.
    exists (k, _parse is_email ft (p ++ [PKey k]) (prop_get props k)).
    split; [done|]. apply list_elem_of_fmap. by exists (k, ft).
Qed.

(** In an object parse that is not aborted no field is aborted, and the
    parsed object holds, under every key of the shape, the parsed value
    of the field. *)
Lemma object_field_value shape props p k ft :
  isAborted (_parse is_email (TObject shape) p (VObject props)).1 = false →
  NoDup (shape.*1) →
  (k, ft) ∈ shape →
  isAborted (_parse is_email ft (p ++ [PKey k]) (prop_get props k)).1 = false
  ∧ get (out_value (_parse is_email (TObject shape) p (VObject props)).1) k
    = out_value (_parse is_email ft (p ++ [PKey k]) (prop_get props k)).1.
Proof.
  simpl. intros Hna Hnd Hin.
  destruct (mergeObjectSync_value _ _ _ Hna) as (fo & -> & _ & Hmerged).
  assert (∀ l : list (string * ZodType),
    (map (λ kr : string * ParseOut, (kr.1, kr.2.1, prop_in props kr.1))
       (map (λ kt : string * ZodType,
               (kt.1, _parse is_email kt.2 (p ++ [PKey kt.1]) (prop_get props kt.1)))
            l)).*1.*1 = l.*1) as Hkeys.
  { intros l. induction l as [|kt l IHl]; simpl; [done|]. f_equal. exact IHl. }
  simpl. eapply Hmerged.
  - by rewrite Hkeys.
  - done.
  - apply list_elem_of_fmap.
    exists (k, _parse is_email ft (p ++ [PKey k]) (prop_get props k)).
    split; [done|]. apply list_elem_of_fmap. by exists (k, ft).
Qed.

Lemma string_not_aborted def p x :
  isAborted (_parse is_email (TString def) p x).1 = false →
  ∃ s, x = VString s ∧ out_value (_parse is_email (TString def) p x).1 = x.
Proof.
  destruct x; simpl; try done. intros _. eexists. split; [done|].
  unfold withStatus. simpl. by destruct (omap _ _).
Qed.

(** *** Validation results *)

Lemma effects_inner_issue t check msg ipath p data issue :
  issue ∈ (_parse is_email t p data).2 →
  issue ∈ (_parse is_email (TEffects t check msg ipath) p data).2.
Proof.
  simpl. destruct (_parse is_email t p data) as [[|v|v] issues]; simpl; [done| |].
  - intros ?. apply elem_of_app. by left.
  - destruct (check v); simpl; [done|]. intros ?. apply elem_of_app. by left.
Qed.

Lemma safeParse_issue t data issue :
  issue ∈ (_parse is_email t [] data).2 →
  safeParse is_email t data = SafeParseError (_parse is_email t [] data).2.
Proof.
  intros Hin. unfold safeParse.
  pose proof (_parse_valid_iff_no_issues t [] data) as Hv.
  destruct (_parse is_email t [] data) as [[|v|v] issues]; simpl in *; [done..|].
  destruct Hv as [Hv _]. rewrite Hv in Hin by done. by apply elem_of_nil in Hin.
Qed.

Lemma safeParse_error_nonempty t data issues :
  safeParse is_email t data = SafeParseError issues → issues ≠ [].
Proof.
  unfold safeParse. pose proof (_parse_valid_iff_no_issues t [] data) as Hv.
  destruct (_parse is_email t [] data) as [[|v|v] issues']; simpl in *;
    intros [= <-]; intros ->; by destruct Hv as [_ Hv]; specialize (Hv eq_refl).
Qed.

(** An issue of the parse makes the typed schema reject the values and
    file the issue's message under the issue's path. *)
Lemma ts_parse_rejects t data issue :
  issue ∈ (_parse is_email t [] data).2 →
  rejects_with (ts_parse (toTypedSchema is_email t) data)
               (form_path (path issue)) (message issue).
Proof.
  intros Hin. unfold rejects_with. simpl.
  rewrite (safeParse_issue _ _ _ Hin). simpl. split; [done|].
  by apply processIssues_elem.
Qed.

(** The typed schema reports no error exactly when zod's parse
    succeeds. *)
Lemma ts_errors_empty_iff t data :
  ts_errors (ts_parse (toTypedSchema is_email t) data) = ∅
  ↔ ∃ v, safeParse is_email t data = SafeParseSuccess v.
Proof.
  simpl. destruct (safeParse is_email t data) as [v|issues] eqn:E; simpl.
  - split; eauto.
  - rewrite processIssues_empty. split.
    + intros ->. by apply safeParse_error_nonempty in E.
    + by intros [v [=]].
Qed.

(** *** The fields of the form *)

Lemma form_field_rejects props k ft issue :
  (k, ft) ∈ formShape now →
  issue ∈ (_parse is_email ft [PKey k] (prop_get props k)).2 →
  rejects_with (ts_parse (validationSchema is_email now) (VObject props))
               (form_path (path issue)) (message issue).
Proof.
  intros Hin Hissue. apply ts_parse_rejects. unfold zodSchema, refine_at.
  apply effects_inner_issue. by eapply (object_field_issue _ _ []).
Qed.

Ltac field_of_form :=
  unfold formShape; repeat (first [by left | right]).

Lemma short_password_issue props s :
  prop_get props "password" = VString s →
  String.length s < 8 →
  {| code := too_small; path := [PKey "password"];
     message := "Your password should contains at least 8 characters" |}
  ∈ (_parse is_email (zodSchema now) [] (VObject props)).2.
Proof.
  intros Hpw Hlen. unfold zodSchema, refine_at. apply effects_inner_issue.
  eapply (object_field_issue _ _ [] "password"); [field_of_form|].
  rewrite Hpw. simpl.
  destruct (Nat.ltb_spec (String.length s) 8) as [_|?]; [|lia].
  by left.
Qed.

(** C3.  Whatever the other fields hold, a password string of fewer
    than 8 characters makes validation fail, with the message
    'Your password should contains at least 8 characters' among the
    errors of the password field. *)
Theorem password_min_length props s :
  prop_get props "password" = VString s →
  String.length s < 8 →
  rejects_with (ts_parse (validationSchema is_email now) (VObject props))
    "password" "Your password should contains at least 8 characters".
Proof.
  intros Hpw Hlen.
  exact (ts_parse_rejects _ _ _ (short_password_issue props s Hpw Hlen)).
Qed.


(** *** Form paths *)

Lemma string_app_assoc (a b c : string) : (a +:+ b) +:+ c = a +:+ (b +:+ c).
Proof.
  induction a as [|x a IH]; [done|].
  unfold String.append; fold String.append. by rewrite IH.
Qed.

Lemma string_app_nil_r (a : string) : a +:+ "" = a.
Proof.
  induction a as [|x a IH]; [done|].
  unfold String.append; fold String.append. by rewrite IH.
Qed.

Lemma foldl_path_segments a rest :
  ∃ sfx, foldl (λ acc e, acc +:+ path_segment e) a rest = a +:+ sfx.
Proof.
  revert a. induction rest as [|e rest IH]; intros a; simpl.
  - exists "". by rewrite string_app_nil_r.
  - destruct (IH (a +:+ path_segment e)) as [sfx ->].
    exists (path_segment e +:+ sfx). apply string_app_assoc.
Qed.

(** The form path of a path under key [k] starts with [k], and with
    [k\[] when an index follows the key. *)
Lemma form_path_below_key k q :
  [PKey k] `prefix_of` q → ∃ sfx, form_path q = k +:+ sfx.
Proof. intros [rest ->]. simpl. apply foldl_path_segments. Qed.

Lemma form_path_below_index k i q :
  [PKey k; PIdx i] `prefix_of` q → ∃ sfx, form_path q = k +:+ "[" +:+ sfx.
Proof.
  intros [rest ->]. simpl.
  destruct (foldl_path_segments (k +:+ "[" +:+ pretty i +:+ "]") rest) as [sfx ->].
  exists (pretty i +:+ "]" +:+ sfx).
  by rewrite !string_app_assoc.
Qed.

(** No error is filed under a form path exactly when no issue of the
    parse has that form path. *)
Lemma ts_errors_lookup_None t data k :
  ts_errors (ts_parse (toTypedSchema is_email t) data) !! k = None
  ↔ ∀ issue, issue ∈ (_parse is_email t [] data).2 →
             form_path (path issue) ≠ k.
Proof.
  simpl. unfold safeParse.
  pose proof (_parse_valid_iff_no_issues t [] data) as Hv.
  assert (∀ issues : list ZodIssue,
            processIssues issues !! k = None
            ↔ ∀ issue, issue ∈ issues → form_path (path issue) ≠ k) as Hp.
  { intros issues. rewrite processIssues_lookup. unfold messages_at. split.
    - intros Hnone issue Hin Hk.
      assert (issue ∈ filter (λ i, form_path (path i) = k) issues) as Hf
        by by apply list_elem_of_filter.
      destruct (filter _ issues) as [|i l]; [by apply elem_of_nil in Hf|done].
    - intros Hall. destruct (filter _ issues) as [|i l] eqn:E; [done|].
      assert (i ∈ filter (λ i, form_path (path i) = k) issues) as Hf
        by (rewrite E; by left).
      apply list_elem_of_filter in Hf as [Hk Hin]. by destruct (Hall i Hin). }
  destruct (_parse is_email t [] data) as [[|v|v] issues]; simpl in *;
    try apply Hp.
  destruct Hv as [Hv _]. rewrite (Hv eq_refl), lookup_empty.
  split; [|done]. by intros _ issue ?%elem_of_nil.
Qed.

(** The issues of the whole schema: those of the fields, and the one of
    the password comparison. *)
Lemma zodSchema_issue_inv props issue :
  issue ∈ (_parse is_email (zodSchema now) [] (VObject props)).2 →
  (∃ k ft, (k, ft) ∈ formShape now
     ∧ issue ∈ (_parse is_email ft [PKey k] (prop_get props k)).2)
  ∨ issue = {| code := custom; path := [PKey "passwordCheck"];
               message := "The confirmation does not match the password" |}.
Proof.
  unfold zodSchema, refine_at. cbn [_parse r_message r_path].
  pose proof (object_issue_inv (formShape now) props [] issue) as Hobj.
  fold (formObject now) in Hobj. unfold formObject, zod.object in *.
  destruct (_parse is_email (TObject (formShape now)) [] (VObject props))
    as [[|v|v] issues]; cbn [fst snd] in *.
  - intros ?. left. by apply Hobj.
  - rewrite elem_of_app. intros [?|Hc]; [left; by apply Hobj|].
    destruct (strict_eq _ _); [by apply elem_of_nil in Hc|].
    apply list_elem_of_singleton in Hc. by right.
  - destruct (strict_eq _ _); cbn [fst snd].
    + intros ?. left. by apply Hobj.
    + rewrite elem_of_app. intros [?|Hc]; [left; by apply Hobj|].
      apply list_elem_of_singleton in Hc. by right.
Qed.

Lemma array_issue_inv t mn mx params p items issue :
  issue ∈ (_parse is_email (TArray t mn mx params) p (VArray items)).2 →
  issue ∈ minLength_issue p (length items) mn
  ∨ issue ∈ maxLength_issue p (length items) mx
  ∨ ∃ i, p ++ [PIdx i] `prefix_of` path issue.
Proof.
  simpl. rewrite !elem_of_app. intros [[?|?]|Hin]; [by left | by right; left|].
  right; right.
  apply elem_of_concat in Hin as (l & Hissue & Hl).
  apply list_elem_of_fmap in Hl as (r & -> & Hr).
  apply elem_of_lookup_imap in Hr as (i & item & -> & _).
  exists i. by eapply _parse_issue_path.
Qed.

Ltac other_field Hissue Hpath :=
  apply _parse_issue_path, form_path_below_key in Hissue as [sfx Hsfx];
  rewrite Hsfx in Hpath; unfold String.append in Hpath; discriminate Hpath.

(** C9.  The number of selected interests is bounded on both sides:
    with fewer than 2 elements validation fails with
    'You must select at least 2 terms of service' on the interests
    field, with more than 3 it fails with
    'You can select up to 3 terms of service' there, and the interests
    field is left without any error exactly when the array has 2 or 3
    elements. *)
Theorem interests_between_2_and_3 props items :
  prop_get props "interests" = VArray items →
  (length items < 2 →
   rejects_with (ts_parse (validationSchema is_email now) (VObject props))
     "interests" "You must select at least 2 terms of service")
  ∧ (3 < length items →
     rejects_with (ts_parse (validationSchema is_email now) (VObject props))
       "interests" "You can select up to 3 terms of service")
  ∧ (ts_errors (ts_parse (validationSchema is_email now) (VObject props))
       !! "interests" = None
     ↔ (2 ≤ length items ≤ 3)%nat).
Proof.
  intros Hint.
  assert (length items < 2 →
    rejects_with (ts_parse (validationSchema is_email now) (VObject props))
      "interests" "You must select at least 2 terms of service") as Hmin.
  { intros Hlen.
    eapply (form_field_rejects props "interests" _
              {| code := too_small; path := [PKey "interests"];
                 message := "You must select at least 2 terms of service" |});
      [field_of_form|].
    rewrite Hint. simpl.
    destruct (Nat.ltb_spec (length items) 2) as [_|?]; [|lia]. by left. }
  assert (3 < length items →
    rejects_with (ts_parse (validationSchema is_email now) (VObject props))
      "interests" "You can select up to 3 terms of service") as Hmax.
  { intros Hlen.
    eapply (form_field_rejects props "interests" _
              {| code := too_big; path := [PKey "interests"];
                 message := "You can select up to 3 terms of service" |});
      [field_of_form|].
    rewrite Hint. simpl.
    destruct (Nat.ltb_spec (length items) 2) as [?|_]; [lia|].
    destruct (Nat.ltb_spec 3 (length items)) as [_|?]; [|lia]. by left. }
  split; [done|]. split; [done|]. split.
  - intros Hnone.
    destruct (decide (length items < 2)) as [Hlt|?].
    { destruct (Hmin Hlt) as (_ & ms & Hms & _). congruence. }
    destruct (decide (3 < length items)) as [Hgt|?]; [|lia].
    destruct (Hmax Hgt) as (_ & ms & Hms & _). congruence.
  - intros Hlen. apply ts_errors_lookup_None. intros issue Hin Hpath.
    apply zodSchema_issue_inv in Hin as [(k & ft & Hk & Hissue)| ->];
      [|discriminate Hpath].
    unfold formShape in Hk.
    repeat (apply elem_of_cons in Hk as [[= -> ->]|Hk]);
      [other_field Hissue Hpath..| |other_field Hissue Hpath
       |by apply elem_of_nil in Hk].
    rewrite Hint in Hissue.
    apply array_issue_inv in Hissue
      as [(_ & n & [= <- _] & ?)%minLength_issue_elem
         |[(_ & n & [= <- _] & ?)%maxLength_issue_elem|[i Hpre]]]; [lia..|].
    apply form_path_below_index in Hpre as [sfx Hsfx].
    rewrite Hsfx in Hpath. unfold String.append in Hpath. discriminate Hpath.
Qed.

(** *** The comparison of the two passwords *)

Lemma formShape_keys_NoDup : NoDup ((formShape now).*1).
Proof. apply (bool_decide_unpack _). by vm_compute. Qed.

(** When the object parse is not aborted both passwords are strings,
    and the refinement compares these two strings. *)
Lemma password_check_strings props :
  isAborted (_parse is_email (formObject now) [] (VObject props)).1 = false →
  ∃ s1 s2,
    prop_get props "password" = VString s1
    ∧ prop_get props "passwordCheck" = VString s2
    ∧ strict_eq
        (get (out_value (_parse is_email (formObject now) [] (VObject props)).1)
             "password")
        (get (out_value (_parse is_email (formObject now) [] (VObject props)).1)
             "passwordCheck")
      = String.eqb s1 s2.
Proof.
  intros Hna. unfold formObject, zod.object in *.
  pose proof formShape_keys_NoDup as Hnd.
  edestruct (object_field_value (formShape now) props [] "password")
    as [Ha1 Hv1]; [done|done|field_of_form|].
  edestruct (object_field_value (formShape now) props [] "passwordCheck")
    as [Ha2 Hv2]; [done|done|field_of_form|].
  apply string_not_aborted in Ha1 as (s1 & Hs1 & Ho1).
  apply string_not_aborted in Ha2 as (s2 & Hs2 & Ho2).
  exists s1, s2. rewrite Hv1, Hv2, Ho1, Ho2. simpl in Hs1, Hs2.
  by rewrite Hs1, Hs2.
Qed.

Lemma password_mismatch_issue props :
  isAborted (_parse is_email (formObject now) [] (VObject props)).1 = false →
  prop_get props "password" ≠ prop_get props "passwordCheck" →
  {| code := custom; path := [PKey "passwordCheck"];
     message := "The confirmation does not match the password" |}
  ∈ (_parse is_email (zodSchema now) [] (VObject props)).2.
Proof.
  intros Hna Hne.
  destruct (password_check_strings props Hna) as (s1 & s2 & Hs1 & Hs2 & Hcheck).
  assert (String.eqb s1 s2 = false) as Hneq.
  { apply String.eqb_neq. intros ->. apply Hne. by rewrite Hs1, Hs2. }
  rewrite Hneq in Hcheck.
  unfold zodSchema, refine_at. cbn [_parse r_message r_path].
  destruct (_parse is_email (formObject now) [] (VObject props))
    as [[|v|v] issues]; cbn [fst snd out_value] in *; [done| |];
    rewrite Hcheck; cbn [fst snd]; apply elem_of_app; right; by left.
Qed.

Lemma string_value_not_aborted def p s :
  isAborted (_parse is_email (TString def) p (VString s)).1 = false.
Proof. apply withStatus_not_aborted. Qed.

Lemma strings_not_aborted def mn mx params p items :
  forallb is_string items = true →
  isAborted (_parse is_email (TArray (TString def) mn mx params) p (VArray items)).1
  = false.
Proof.
  intros Hall. apply not_true_is_false. simpl.
  rewrite mergeArray_aborted, Exists_exists.
  intros (r & Hr & Ha). apply list_elem_of_fmap in Hr as (o & -> & Ho).
  apply elem_of_lookup_imap in Ho as (i & item & -> & Hitem).
  apply list_elem_of_lookup_2 in Hitem.
  rewrite forallb_forall in Hall. apply list_elem_of_In, Hall in Hitem.
  destruct item; try done. by rewrite withStatus_not_aborted in Ha.
Qed.

(** Values of the declared types are parsed without a type error. *)
Lemma declared_types_not_aborted props :
  has_declared_types (VObject props) = true →
  isAborted (_parse is_email (formObject now) [] (VObject props)).1 = false.
Proof.
  unfold has_declared_types.
  rewrite !andb_true_iff. intros [[[[[[He Hp] Hc] Hb] Ha] Hi] Ho].
  apply not_true_is_false. unfold formObject, zod.object.
  rewrite object_aborted. intros (k & ft & Hk & Habort).
  unfold formShape in Hk.
  repeat (apply elem_of_cons in Hk as [[= -> ->]|Hk]);
    [..|by apply elem_of_nil in Hk].
  - destruct (prop_get props "email"); try done.
    by rewrite string_value_not_aborted in Habort.
  - destruct (prop_get props "password"); try done.
    by rewrite string_value_not_aborted in Habort.
  - destruct (prop_get props "passwordCheck"); try done.
  - destruct (prop_get props "birthdate") as [| | | | |[t|]| |]; try done.
    unfold nullable in Habort. cbn [_parse] in Habort.
    by rewrite withStatus_not_aborted in Habort.
  - destruct (prop_get props "agreeTerms") as [| |[]| | | | |]; try done.
  - destruct (prop_get props "interests"); try done.
    exact (eq_true_false_abs _ Habort
             (strings_not_aborted (zod.string no_params) _ _ _ _ _ Hi)).
  - destruct (prop_get props "emailOptin"); try done.
Qed.

(** C2, as the schema has it.  Whenever the two passwords differ,
    validation fails; and when, in addition, every field holds a value
    of its declared type, the error
    'The confirmation does not match the password' is filed under the
    passwordCheck field. *)
Theorem password_confirmation data :
  get data "password" ≠ get data "passwordCheck" →
  ts_value (ts_parse (validationSchema is_email now) data) = None
  ∧ (has_declared_types data = true →
     rejects_with (ts_parse (validationSchema is_email now) data)
       "passwordCheck" "The confirmation does not match the password").
Proof.
  intros Hne. destruct data as [| | | | | | |props]; try done.
  simpl in Hne.
  destruct (isAborted (_parse is_email (formObject now) [] (VObject props)).1)
    eqn:Habort.
  - split.
    + simpl. unfold safeParse, zodSchema, refine_at. cbn [_parse].
      destruct (_parse is_email (formObject now) [] (VObject props))
        as [[|v|v] issues]; done.
    + intros Htyped. by rewrite declared_types_not_aborted in Habort.
  - pose proof (ts_parse_rejects _ _ _ (password_mismatch_issue props Habort Hne))
      as Hrej.
    split; [apply Hrej | intros _; exact Hrej].
Qed.

(** *** The submission handler *)

Lemma handleSubmit_valid t fn w data :
  safeParse is_email t (values w) = SafeParseSuccess data →
  handleSubmit (toTypedSchema is_email t) fn w = run (fn data) (with_errors ∅ w).
Proof. intros Hs. unfold handleSubmit. simpl. rewrite Hs. by simpl. Qed.

Lemma handleSubmit_invalid t fn w issues :
  safeParse is_email t (values w) = SafeParseError issues →
  handleSubmit (toTypedSchema is_email t) fn w
  = with_errors (processIssues issues) w.
Proof.
  intros Hs. unfold handleSubmit. simpl. rewrite Hs. simpl.
  rewrite bool_decide_eq_false_2; [done|].
  rewrite processIssues_empty. by eapply safeParse_error_nonempty.
Qed.

(** The callback entered while [loading] is set returns at once. *)
Lemma onSignup_busy w v : loading w = true → run (onSignup v) w = w.
Proof. intros Hl. simpl. by rewrite Hl. Qed.

(** The callback entered while [loading] is clear sets it, starts the
    1600 ms timer and parks the rest of its body; what the rest does
    when it is resumed depends on the email alone. *)
Lemma onSignup_idle w v :
  loading w = false →
  ∃ k, run (onSignup v) w
       = with_timers (timers w ++ [(1600%Z, k)])
           (emit (Sleep 1600) (with_loading true w))
    ∧ ∀ w',
        run k w'
        = if strict_eq (get v "email") (VString "awesome@cssninja.io")
          then with_loading false
                 (emit (NotyfSuccess "You have successfully signed up!") w')
          else with_loading false
                 (emit (ScrollTo "#email")
                    (emit (SetFieldError "email"
                             "This email is already taken! Tip: use awesome@cssninja.io")
                       (with_errors
                          (<["email" :=
                               ["This email is already taken! Tip: use awesome@cssninja.io"]]>
                             (errors w')) w'))).
Proof.
  intros Hl. simpl. rewrite Hl. eexists. split; [done|].
  intros w'. by destruct (strict_eq _ _).
Qed.

Lemma onSignup_idle_releases w v :
  loading w = false →
  ∃ k, run (onSignup v) w
       = with_timers (timers w ++ [(1600%Z, k)])
           (emit (Sleep 1600) (with_loading true w))
    ∧ releases k.
Proof.
  intros Hl. destruct (onSignup_idle w v Hl) as (k & Hrun & Hk).
  exists k. split; [done|]. intros w'. rewrite Hk.
  by destruct (strict_eq _ _).
Qed.

(** What validated values look like: the email is a string. *)
Lemma validated_email x data :
  safeParse is_email (zodSchema now) x = SafeParseSuccess data →
  ∃ s, get data "email" = VString s.
Proof.
  unfold safeParse, zodSchema, refine_at. cbn [_parse].
  destruct x as [| | | | | | |props]; try done.
  pose proof (object_field_value (formShape now) props [] "email") as Hf.
  fold (zod.object (formShape now)) in Hf. fold (formObject now) in Hf.
  destruct (_parse is_email (formObject now) [] (VObject props))
    as [[|v|v] issues]; cbn [fst snd out_value isAborted] in *; try done.
  destruct (strict_eq _ _); [|done]. intros [= <-].
  edestruct Hf as [Ha Hv]; [done|apply formShape_keys_NoDup|field_of_form|].
  apply string_not_aborted in Ha as (s & Hs & Ho).
  exists s. rewrite Hv, Ho. simpl in Hs. by rewrite Hs.
Qed.

(** *** The loading flag *)

Lemma loading_invariant_step w w' :
  step is_email now w w' → loading_invariant w → loading_invariant w'.
Proof.
  intros Hstep Hinv. destruct Hstep as [w|w|w v|w ms k before after Ht].
  - unfold handleSignup, validationSchema.
    destruct (safeParse is_email (zodSchema now) (values w)) as [data|issues] eqn:Hs.
    + rewrite (handleSubmit_valid _ _ _ _ Hs).
      destruct (loading w) eqn:Hl.
      * by rewrite onSignup_busy.
      * destruct (onSignup_idle_releases (with_errors ∅ w) data Hl)
          as (k & -> & Hk).
        unfold loading_invariant in *. simpl.
        destruct (timers w) as [|[ms0 k0] [|? ?]]; simpl; [done| |done].
        destruct Hinv as [? _]. congruence.
    + by rewrite (handleSubmit_invalid _ _ _ _ Hs).
  - done.
  - done.
  - unfold loading_invariant in *. rewrite Ht in Hinv.
    destruct before as [|[? ?] before]; simpl in Hinv;
      [|by destruct before].
    destruct after; [|done]. destruct Hinv as [_ Hk].
    destruct (Hk (with_timers [] w)) as [Hl Htm].
    simpl. by rewrite Htm.
Qed.

Lemma reachable_loading_invariant w :
  reachable is_email now w → loading_invariant w.
Proof.
  unfold reachable. revert w.
  apply (rtc_ind_r (R := step is_email now) loading_invariant mounted); [done|].
  intros w1 w2 _ Hstep Hinv. by eapply loading_invariant_step.
Qed.

(** *** The claims on the submission flow *)

(** C1.  The handler is gated by the schema: when validation of the
    current form values succeeds the callback is run on the parsed
    values; when it fails the callback is not run, the page only
    receives the errors of the schema, and no call is made, no timer
    started and [loading] is not touched.  While no submission is in
    flight the callback's first call (the sleep) is observed exactly
    when validation succeeded. *)
Theorem handleSignup_gated w :
  (∀ data,
     safeParse is_email (zodSchema now) (values w) = SafeParseSuccess data →
     handleSignup is_email now w = run (onSignup data) (with_errors ∅ w))
  ∧ (∀ issues,
       safeParse is_email (zodSchema now) (values w) = SafeParseError issues →
       handleSignup is_email now w = with_errors (processIssues issues) w
       ∧ log (handleSignup is_email now w) = log w
       ∧ timers (handleSignup is_email now w) = timers w
       ∧ loading (handleSignup is_email now w) = loading w)
  ∧ (loading w = false →
     (∃ data, safeParse is_email (zodSchema now) (values w) = SafeParseSuccess data)
     ↔ log (handleSignup is_email now w) = log w ++ [Sleep 1600]).
Proof.
  unfold handleSignup, validationSchema. split; [|split].
  - intros data Hs. by apply handleSubmit_valid.
  - intros issues Hs. by rewrite (handleSubmit_invalid _ _ _ _ Hs).
  - intros Hl.
    destruct (safeParse is_email (zodSchema now) (values w)) as [data|issues] eqn:Hs.
    + rewrite (handleSubmit_valid _ _ _ _ Hs).
      destruct (onSignup_idle (with_errors ∅ w) data Hl) as (k & -> & _).
      split; [done | eauto].
    + rewrite (handleSubmit_invalid _ _ _ _ Hs). simpl. split.
      * by intros [data [=]].
      * intros Heq. exfalso.
        apply (f_equal length) in Heq. rewrite length_app in Heq.
        simpl in Heq. lia.
Qed.

(** C5, as the callback has it.  For values that pass validation and
    are submitted while [loading] is clear, the handler awaits a fixed
    1600 ms sleep before producing either outcome: the call of the
    handler only starts the sleep and parks a continuation, and the
    outcome (the success notification, or the email error and the
    scroll) is what this continuation does when the timer resumes it,
    so that the delay precedes the outcome. *)
Theorem delay_precedes_outcome w data :
  safeParse is_email (zodSchema now) (values w) = SafeParseSuccess data →
  loading w = false →
  ∃ k,
    log (handleSignup is_email now w) = log w ++ [Sleep 1600]
    ∧ timers (handleSignup is_email now w) = timers w ++ [(1600%Z, k)]
    ∧ ∀ w',
        timers (run k w') = timers w'
        ∧ (log (run k w')
           = log w' ++ [NotyfSuccess "You have successfully signed up!"]
           ∨ log (run k w')
             = log w' ++ [SetFieldError "email"
                            "This email is already taken! Tip: use awesome@cssninja.io";
                          ScrollTo "#email"]).
Proof.
  intros Hs Hl. unfold handleSignup, validationSchema.
  rewrite (handleSubmit_valid _ _ _ _ Hs).
  destruct (onSignup_idle (with_errors ∅ w) data Hl) as (k & -> & Hk).
  exists k. split; [done|]. split; [done|].
  intros w'. rewrite Hk. destruct (strict_eq _ _); simpl.
  - split; [done|]. by left.
  - split; [done|]. right. by rewrite <- app_assoc.
Qed.

(** C6.  The initial values do not satisfy the schema, so submitting
    the untouched form does not reach the callback: no call is made
    (no notification, no email error), no timer is started and
    [loading] keeps its value. *)
Theorem untouched_form_not_submitted w :
  values w = initialValues →
  (∃ issues,
     safeParse is_email (zodSchema now) initialValues = SafeParseError issues)
  ∧ log (handleSignup is_email now w) = log w
  ∧ timers (handleSignup is_email now w) = timers w
  ∧ loading (handleSignup is_email now w) = loading w.
Proof.
  intros Hv.
  assert (∃ issues,
    safeParse is_email (zodSchema now) initialValues = SafeParseError issues)
    as [issues Hs].
  { eexists. eapply safeParse_issue.
    apply (short_password_issue _ ""); [done | simpl; lia]. }
  split; [eauto|].
  unfold handleSignup, validationSchema.
  rewrite <- Hv in Hs. by rewrite (handleSubmit_invalid _ _ _ _ Hs).
Qed.

(** C7, as the callback has it.  For every validated submission that
    enters with [loading] clear, the outcome is decided by the email
    alone: the continuation the timer resumes shows the success
    notification, and sets no error, exactly when the email is
    'awesome@cssninja.io'; for any other email it sets the error
    'This email is already taken! Tip: use awesome@cssninja.io' on
    the email field and scrolls to '#email', and shows no
    notification. *)
Theorem outcome_by_email w data :
  safeParse is_email (zodSchema now) (values w) = SafeParseSuccess data →
  loading w = false →
  ∃ s k,
    get data "email" = VString s
    ∧ timers (handleSignup is_email now w) = timers w ++ [(1600%Z, k)]
    ∧ ∀ w',
        (s = "awesome@cssninja.io" →
         log (run k w')
         = log w' ++ [NotyfSuccess "You have successfully signed up!"]
         ∧ errors (run k w') = errors w')
        ∧ (s ≠ "awesome@cssninja.io" →
           log (run k w')
           = log w' ++ [SetFieldError "email"
                          "This email is already taken! Tip: use awesome@cssninja.io";
                        ScrollTo "#email"]
           ∧ errors (run k w')
             = <["email" :=
                   ["This email is already taken! Tip: use awesome@cssninja.io"]]>
                 (errors w')).
Proof.
  intros Hs Hl. destruct (validated_email _ _ Hs) as [s Hemail].
  unfold handleSignup, validationSchema.
  rewrite (handleSubmit_valid _ _ _ _ Hs).
  destruct (onSignup_idle (with_errors ∅ w) data Hl) as (k & -> & Hk).
  exists s, k. split; [done|]. split; [done|].
  intros w'. rewrite Hk, Hemail. simpl.
  destruct (String.eqb_spec s "awesome@cssninja.io") as [->|Hne]; simpl.
  - split; [done|]. by intros [].
  - split; [done|]. intros _. by rewrite <- app_assoc.
Qed.

(** C8.  On every page state that can be reached, the loading flag
    guards the callback and is always released: entered while
    [loading] is set the callback changes nothing; entered while it
    is clear it sets [loading], parks one continuation, and this
    continuation clears [loading] whenever it is resumed; and
    [loading] is clear exactly when no continuation is parked. *)
Theorem loading_guard_released w :
  reachable is_email now w →
  (∀ v, loading w = true → run (onSignup v) w = w)
  ∧ (∀ v, loading w = false →
       ∃ k, run (onSignup v) w
            = with_timers (timers w ++ [(1600%Z, k)])
                (emit (Sleep 1600) (with_loading true w))
         ∧ releases k)
  ∧ (loading w = false ↔ timers w = []).
Proof.
  intros Hinv%reachable_loading_invariant.
  split; [intros v; apply onSignup_busy|].
  split; [intros v; apply onSignup_idle_releases|].
  unfold loading_invariant in Hinv.
  destruct (timers w) as [|[ms k] [|? ?]]; [done| |done].
  destruct Hinv as [-> _]. done.
Qed.

(** *** Typed values *)

Lemma strings_outcomes (g : nat → value → ParseOut) (l : list string) :
  (∀ i s, g i (VString s) = (OK (VString s), [])) →
  imap g (VString <$> l) = (λ s, (OK (VString s), []) : ParseOut) <$> l.
Proof.
  revert g. induction l as [|s l IH]; intros g Hg; [done|].
  simpl. rewrite Hg. f_equal. apply (IH (g ∘ S)). intros i s'. apply Hg.
Qed.

Lemma strings_outcomes_issues (l : list string) :
  concat (((λ s, (OK (VString s), []) : ParseOut) <$> l).*2) = [].
Proof. induction l as [|s l IH]; [done|]. exact IH. Qed.

Lemma strings_outcomes_merge (l : list string) dirty acc :
  mergeArray dirty (((λ s, (OK (VString s), []) : ParseOut) <$> l).*1) acc
  = if dirty then DIRTY (VArray (acc ++ (VString <$> l)))
    else OK (VArray (acc ++ (VString <$> l))).
Proof.
  revert acc. induction l as [|s l IH]; intros acc; simpl.
  - by rewrite app_nil_r.
  - rewrite IH. by rewrite <- app_assoc.
Qed.

(** The issues of the object on typed values: those of the rules, but
    for the comparison of the passwords. *)
Lemma typed_object_issues props f :
  holds props f →
  (_parse is_email (formObject now) [] (VObject props)).2
  ++ (if String.eqb (f_password f) (f_passwordCheck f) then []
      else [{| code := custom; path := [PKey "passwordCheck"];
               message := "The confirmation does not match the password" |}])
  = rule_issues is_email now f.
Proof.
  intros (He & Hp & Hc & Hb & Ha & Hi & Ho).
  unfold formObject, zod.object, formShape, rule_issues.
  cbn [_parse map fst snd].
  rewrite He, Hp, Hc, Hb, Ha, Hi, Ho.
  unfold nullable, refine, zod.boolean, ZodArray_type, array, arr.max, arr.min.
  cbn [_parse a_type a_minLength a_maxLength a_params].
  rewrite strings_outcomes by done.
  rewrite strings_outcomes_issues, length_fmap.
  unfold minLength_issue, maxLength_issue, birthdate_value, withStatus.
  simpl.
  destruct (is_email (f_email f)), (String.length (f_password f) <? 8)%nat,
    (f_birthdate f) as [t|], (f_agreeTerms f),
    (length (f_interests f) <? 2)%nat, (3 <? length (f_interests f))%nat,
    (String.eqb (f_password f) (f_passwordCheck f));
    try destruct (now <? t)%Z; reflexivity.
Qed.

(** On typed values the object parse is not aborted and yields the seven
    declared keys with the values of the form. *)
Lemma typed_object_value props f :
  holds props f →
  isAborted (_parse is_email (formObject now) [] (VObject props)).1 = false
  ∧ out_value (_parse is_email (formObject now) [] (VObject props)).1
    = parsed_form f.
Proof.
  intros (He & Hp & Hc & Hb & Ha & Hi & Ho).
  unfold formObject, zod.object, formShape, parsed_form.
  cbn [_parse map fst snd].
  rewrite He, Hp, Hc, Hb, Ha, Hi, Ho.
  unfold nullable, refine, zod.boolean, ZodArray_type, array, arr.max, arr.min.
  cbn [_parse a_type a_minLength a_maxLength a_params].
  rewrite strings_outcomes by done.
  rewrite strings_outcomes_merge, length_fmap.
  unfold minLength_issue, maxLength_issue, birthdate_value, withStatus.
  simpl.
  destruct (is_email (f_email f)), (String.length (f_password f) <? 8)%nat,
    (f_birthdate f) as [t|], (f_agreeTerms f),
    (length (f_interests f) <? 2)%nat, (3 <? length (f_interests f))%nat;
    try destruct (now <? t)%Z; split; reflexivity.
Qed.

(** What zod answers on typed values: the parsed form when the rules
    raise no issue, their issues otherwise. *)
Lemma typed_safeParse props f :
  holds props f →
  safeParse is_email (zodSchema now) (VObject props)
  = match rule_issues is_email now f with
    | [] => SafeParseSuccess (parsed_form f)
    | issues => SafeParseError issues
    end.
Proof.
  intros Hf.
  pose proof (typed_object_issues props f Hf) as Hissues.
  destruct (typed_object_value props f Hf) as [Hna Hv].
  pose proof (_parse_valid_iff_no_issues (formObject now) [] (VObject props)) as Hvalid.
  unfold safeParse, zodSchema, refine_at. cbn [_parse r_message r_path].
  destruct (_parse is_email (formObject now) [] (VObject props))
    as [[|v|v] issues]; cbn [fst snd out_value isAborted isValid] in *;
    [done| |]; subst v; cbn [parsed_form get prop_get String.eqb Ascii.eqb Bool.eqb strict_eq].
  - rewrite <- Hissues.
    destruct issues as [|i issues]; [by destruct Hvalid as [_ Hvalid]; specialize (Hvalid eq_refl)|].
    by destruct (String.eqb (f_password f) (f_passwordCheck f)).
  - destruct Hvalid as [Hvalid _]. rewrite (Hvalid eq_refl) in *.
    rewrite <- Hissues.
    by destruct (String.eqb (f_password f) (f_passwordCheck f)).
Qed.

Lemma satisfies_rules_no_issue f :
  satisfies_rules is_email now f = true ↔ rule_issues is_email now f = [].
Proof.
  unfold satisfies_rules, rule_issues.
  destruct (is_email (f_email f)),
    (Nat.leb_spec 8 (String.length (f_password f))),
    (Nat.ltb_spec (String.length (f_password f)) 8),
    (String.eqb (f_password f) (f_passwordCheck f)),
    (f_agreeTerms f),
    (Nat.leb_spec 2 (length (f_interests f))),
    (Nat.ltb_spec (length (f_interests f)) 2),
    (Nat.leb_spec (length (f_interests f)) 3),
    (Nat.ltb_spec 3 (length (f_interests f)));
    try lia;
    destruct (f_birthdate f) as [t|];
    try (destruct (Z.leb_spec t now), (Z.ltb_spec now t); try lia);
    simpl; split; congruence.
Qed.

Lemma strings_of_not_aborted (g : nat → value → ParseOut) items :
  (∀ i x, isAborted (g i x).1 = false → ∃ s, x = VString s) →
  ¬ Exists (λ r, isAborted r = true) ((imap g items).*1) →
  ∃ l : list string, items = VString <$> l.
Proof.
  revert g. induction items as [|x items IH]; intros g Hg Hna.
  - by exists [].
  - simpl in Hna. rewrite Exists_cons in Hna.
    destruct (Hg 0 x) as [s ->].
    { apply not_true_is_false. tauto. }
    destruct (IH (g ∘ S)) as [l ->].
    + intros i y. apply Hg.
    + tauto.
    + by exists (s :: l).
Qed.

(** An object parse that is not aborted was given typed values. *)
Lemma not_aborted_typed props :
  isAborted (_parse is_email (formObject now) [] (VObject props)).1 = false →
  ∃ f, holds props f.
Proof.
  intros Hna. unfold formObject, zod.object in Hna.
  pose proof formShape_keys_NoDup as Hnd.
  pose proof (λ k ft Hin,
    proj1 (object_field_value (formShape now) props [] k ft Hna Hnd Hin)) as Hfield.
  assert (∃ e, prop_get props "email" = VString e) as [e He].
  { edestruct (string_not_aborted) as (s & Hs & _);
      [eapply (Hfield "email"); field_of_form|]. eauto. }
  assert (∃ p, prop_get props "password" = VString p) as [p Hp].
  { edestruct (string_not_aborted) as (s & Hs & _);
      [eapply (Hfield "password"); field_of_form|]. eauto. }
  assert (∃ c, prop_get props "passwordCheck" = VString c) as [c Hc].
  { edestruct (string_not_aborted) as (s & Hs & _);
      [eapply (Hfield "passwordCheck"); field_of_form|]. eauto. }
  assert (∃ b, prop_get props "birthdate" = birthdate_value b) as [b Hb].
  { epose proof (Hfield "birthdate" _ ltac:(field_of_form)) as H.
    simpl in H.
    destruct (prop_get props "birthdate") as [| | | | |[t|]| |]; try done.
    - by exists None.
    - by exists (Some t). }
  assert (∃ a, prop_get props "agreeTerms" = VBool a) as [a Ha].
  { epose proof (Hfield "agreeTerms" _ ltac:(field_of_form)) as H.
    simpl in H. destruct (prop_get props "agreeTerms"); try done. eauto. }
  assert (∃ o, prop_get props "emailOptin" = VBool o) as [o Ho].
  { epose proof (Hfield "emailOptin" _ ltac:(field_of_form)) as H.
    simpl in H. destruct (prop_get props "emailOptin"); try done. eauto. }
  assert (∃ l : list string, prop_get props "interests" = VArray (VString <$> l))
    as [l Hl].
  { epose proof (Hfield "interests" _ ltac:(field_of_form)) as H.
    destruct (prop_get props "interests") as [| | | | | |items|]; try done.
    apply not_true_iff_false in H. simpl in H.
    rewrite mergeArray_aborted in H.
    apply strings_of_not_aborted in H as [l ->]; [by exists l|].
    intros i x Hx. destruct x; try done. eauto. }
  exists {| f_email := e; f_password := p; f_passwordCheck := c;
            f_birthdate := b; f_interests := l; f_agreeTerms := a;
            f_emailOptin := o |}.
  by repeat split.
Qed.

(** Accepted values are typed, satisfy the rules, and are parsed into
    the form of their seven declared keys. *)
Lemma safeParse_success_typed data v :
  safeParse is_email (zodSchema now) data = SafeParseSuccess v →
  ∃ props f, data = VObject props ∧ holds props f
    ∧ satisfies_rules is_email now f = true ∧ v = parsed_form f.
Proof.
  intros Hs. destruct data as [| | | | | | |props]; try done.
  assert (isAborted (_parse is_email (formObject now) [] (VObject props)).1 = false)
    as Hna.
  { revert Hs. unfold safeParse, zodSchema, refine_at. cbn [_parse].
    by destruct (_parse is_email (formObject now) [] (VObject props)) as [[|?|?] ?]. }
  destruct (not_aborted_typed props Hna) as [f Hf].
  exists props, f. split; [done|]. split; [done|].
  rewrite (typed_safeParse props f Hf) in Hs.
  rewrite satisfies_rules_no_issue.
  destruct (rule_issues is_email now f); [|done].
  by injection Hs as <-.
Qed.

(** X1.  The schema accepts exactly the typed values that satisfy its
    rules: validation succeeds if and only if the input is an object
    whose seven fields hold values of their declared types, the email
    matches the email pattern, the password has at least 8 characters
    and equals its confirmation, the birthdate is null or not after the
    date the page was set up, the terms are agreed, and 2 or 3
    interests are selected.  The email opt-in plays no part. *)
Theorem accepted_iff_rules data :
  (∃ v, safeParse is_email (zodSchema now) data = SafeParseSuccess v)
  ↔ ∃ props f, data = VObject props ∧ holds props f
      ∧ satisfies_rules is_email now f = true.
Proof.
  split.
  - intros [v Hs].
    destruct (safeParse_success_typed data v Hs) as (props & f & ? & ? & ? & _).
    eauto.
  - intros (props & f & -> & Hf & Hr).
    rewrite (typed_safeParse props f Hf).
    apply satisfies_rules_no_issue in Hr. rewrite Hr. eauto.
Qed.

(** X2.  Accepted values reach the callback unchanged and without
    undeclared keys: the object a successful validation returns holds,
    under each of the seven declared keys, the value the input holds
    there, and nothing under any other key. *)
Theorem parsed_values_declared data v :
  safeParse is_email (zodSchema now) data = SafeParseSuccess v →
  ∀ k,
    get v k
    = if bool_decide (k ∈ ["email"; "password"; "passwordCheck"; "birthdate";
                           "agreeTerms"; "interests"; "emailOptin"])
      then get data k else VUndefined.
Proof.
  intros Hs k.
  destruct (safeParse_success_typed data v Hs)
    as (props & f & -> & (He & Hp & Hc & Hb & Ha & Hi & Ho) & _ & ->).
  case_bool_decide as Hk.
  - repeat (apply elem_of_cons in Hk as [->|Hk]); simpl; try done.
    by apply elem_of_nil in Hk.
  - unfold parsed_form. cbn [get prop_get].
    repeat match goal with
           | |- context [String.eqb ?a k] =>
               destruct (String.eqb_spec a k) as [<-|_];
               [exfalso; apply Hk; repeat (first [by left | right])|]
           end.
    done.
Qed.

Lemma typed_ts_errors props f :
  holds props f →
  ts_errors (ts_parse (validationSchema is_email now) (VObject props))
  = processIssues (rule_issues is_email now f).
Proof.
  intros Hf. simpl. rewrite (typed_safeParse props f Hf).
  by destruct (rule_issues is_email now f).
Qed.

(** X3.  On typed values every field reports its own rule, one message
    at most, whatever the other fields hold: the errors of a field are
    there exactly when the field breaks its rule, so that several
    fields can be in error at once (a short password and a wrong
    confirmation, say), and the email opt-in never is. *)
Theorem typed_error_report props f :
  holds props f →
  let errs := ts_errors (ts_parse (validationSchema is_email now) (VObject props)) in
  errs !! "email"
  = (if is_email (f_email f) then None
     else Some ["A valid email address should be provided"])
  ∧ errs !! "password"
    = (if (String.length (f_password f) <? 8)%nat
       then Some ["Your password should contains at least 8 characters"]
       else None)
  ∧ errs !! "passwordCheck"
    = (if String.eqb (f_password f) (f_passwordCheck f) then None
       else Some ["The confirmation does not match the password"])
  ∧ errs !! "birthdate"
    = match f_birthdate f with
      | Some t => if (now <? t)%Z
                  then Some ["You cannot be born in the future"] else None
      | None => None
      end
  ∧ errs !! "agreeTerms"
    = (if f_agreeTerms f then None
       else Some ["You must agree our terms of service"])
  ∧ errs !! "interests"
    = (if (length (f_interests f) <? 2)%nat
       then Some ["You must select at least 2 terms of service"]
       else if (3 <? length (f_interests f))%nat
            then Some ["You can select up to 3 terms of service"]
            else None)
  ∧ errs !! "emailOptin" = None.
Proof.
  intros Hf errs. subst errs. rewrite (typed_ts_errors props f Hf).
  unfold rule_issues.
  destruct (Nat.ltb_spec (length (f_interests f)) 2),
    (Nat.ltb_spec 3 (length (f_interests f))); try lia;
    destruct (is_email (f_email f)), (String.length (f_password f) <? 8)%nat,
      (String.eqb (f_password f) (f_passwordCheck f)), (f_agreeTerms f),
      (f_birthdate f) as [t|];
    try destruct (now <? t)%Z;
    by vm_compute.
Qed.

(** *** The birthdate and the terms, whatever the other fields hold *)

Ltac own_field_only Hk Hissue Hpath :=
  unfold formShape in Hk;
  repeat (apply elem_of_cons in Hk as [[= -> ->]|Hk]);
  first [other_field Hissue Hpath | by apply elem_of_nil in Hk | idtac].

(** X4.  The birthdate is optional but cannot lie in the future:
    a missing birthdate is answered 'Please enter a date', a value that
    is neither null nor a date 'Please enter a valid date', a date after
    the moment the page was set up 'You cannot be born in the future';
    null and any date up to that moment leave the birthdate field
    without error, whatever the other fields hold. *)
Theorem birthdate_rule props :
  (prop_get props "birthdate" = VUndefined →
   rejects_with (ts_parse (validationSchema is_email now) (VObject props))
     "birthdate" "Please enter a date")
  ∧ (getParsedType (prop_get props "birthdate") ∉ [PT_undefined; PT_null; PT_date] →
     rejects_with (ts_parse (validationSchema is_email now) (VObject props))
       "birthdate" "Please enter a valid date")
  ∧ (∀ t, prop_get props "birthdate" = VDate (Some t) → (now < t)%Z →
     rejects_with (ts_parse (validationSchema is_email now) (VObject props))
       "birthdate" "You cannot be born in the future")
  ∧ (prop_get props "birthdate" = VNull
     ∨ (∃ t, prop_get props "birthdate" = VDate (Some t) ∧ (t ≤ now)%Z) →
     ts_errors (ts_parse (validationSchema is_email now) (VObject props))
       !! "birthdate" = None).
Proof.
  split; [|split; [|split]].
  - intros Hb.
    eapply (form_field_rejects props "birthdate" _
              {| code := invalid_type; path := [PKey "birthdate"];
                 message := "Please enter a date" |});
      [field_of_form|].
    rewrite Hb. by left.
  - intros Hb.
    eapply (form_field_rejects props "birthdate" _
              {| code := invalid_type; path := [PKey "birthdate"];
                 message := "Please enter a valid date" |});
      [field_of_form|].
    destruct (prop_get props "birthdate"); try (by left);
      exfalso; apply Hb; simpl; repeat (first [by left | right]).
  - intros t Hb Ht.
    eapply (form_field_rejects props "birthdate" _
              {| code := too_big; path := [PKey "birthdate"];
                 message := "You cannot be born in the future" |});
      [field_of_form|].
    rewrite Hb. simpl. destruct (Z.ltb_spec now t); [by left | lia].
  - intros Hb. apply ts_errors_lookup_None. intros issue Hin Hpath.
    apply zodSchema_issue_inv in Hin as [(k & ft & Hk & Hissue)| ->];
      [|discriminate Hpath].
    own_field_only Hk Hissue Hpath.
    destruct Hb as [Hb|(t & Hb & Ht)]; rewrite Hb in Hissue; simpl in Hissue.
    + by apply elem_of_nil in Hissue.
    + destruct (Z.ltb_spec now t); [lia|]. by apply elem_of_nil in Hissue.
Qed.

(** X5.  The terms must be agreed: with [agreeTerms] false validation
    fails with 'You must agree our terms of service' on that field, and
    the field is without error exactly when [agreeTerms] is true,
    whatever the other fields hold. *)
Theorem agreeTerms_rule props a :
  prop_get props "agreeTerms" = VBool a →
  (a = false →
   rejects_with (ts_parse (validationSchema is_email now) (VObject props))
     "agreeTerms" "You must agree our terms of service")
  ∧ (ts_errors (ts_parse (validationSchema is_email now) (VObject props))
       !! "agreeTerms" = None
     ↔ a = true).
Proof.
  intros Ha.
  assert (a = false →
    rejects_with (ts_parse (validationSchema is_email now) (VObject props))
      "agreeTerms" "You must agree our terms of service") as Hrej.
  { intros ->.
    eapply (form_field_rejects props "agreeTerms" _
              {| code := custom; path := [PKey "agreeTerms"];
                 message := "You must agree our terms of service" |});
      [field_of_form|].
    rewrite Ha. by left. }
  split; [done|]. split.
  - intros Hnone. destruct a; [done|].
    destruct (Hrej eq_refl) as (_ & ms & Hms & _). congruence.
  - intros ->. apply ts_errors_lookup_None. intros issue Hin Hpath.
    apply zodSchema_issue_inv in Hin as [(k & ft & Hk & Hissue)| ->];
      [|discriminate Hpath].
    own_field_only Hk Hissue Hpath.
    rewrite Ha in Hissue. by apply elem_of_nil in Hissue.
Qed.

(** *** The log of the page *)

Lemma onSignup_idle_outcome w v :
  loading w = false →
  ∃ k, run (onSignup v) w
       = with_timers (timers w ++ [(1600%Z, k)])
           (emit (Sleep 1600) (with_loading true w))
    ∧ outcome_continuation k.
Proof.
  intros Hl. destruct (onSignup_idle w v Hl) as (k & Hrun & Hk).
  exists k. split; [done|]. intros w'. rewrite Hk.
  destruct (strict_eq _ _); simpl.
  - split; [done|]. split; [done|]. by left.
  - split; [done|]. split; [done|]. right. by rewrite <- app_assoc.
Qed.

Lemma rounds_invariant_step w w' :
  step is_email now w w' → rounds_invariant w → rounds_invariant w'.
Proof.
  intros Hstep [Hlog Htimers].
  destruct Hstep as [w|w|w v|w ms k before after Ht].
  - unfold handleSignup, validationSchema.
    destruct (safeParse is_email (zodSchema now) (values w)) as [data|issues] eqn:Hs.
    + rewrite (handleSubmit_valid _ _ _ _ Hs).
      destruct (loading w) eqn:Hl.
      * rewrite onSignup_busy by done. split; simpl; rewrite ?Hl; done.
      * destruct (onSignup_idle_outcome (with_errors ∅ w) data Hl)
          as (k & -> & Hk).
        split; simpl.
        -- by apply rounds_sleep.
        -- destruct (timers w) as [|[ms0 k0] [|? ?]]; simpl; [done| |done].
           destruct Htimers as [? _]. congruence.
    + by rewrite (handleSubmit_invalid _ _ _ _ Hs).
  - done.
  - done.
  - rewrite Ht in Htimers.
    destruct before as [|[? ?] before]; simpl in Htimers;
      [|by destruct before].
    destruct after; [|done]. destruct Htimers as [Hl Hk].
    destruct (Hk (with_timers ([] ++ []) w)) as (Hl' & Htm & Hout).
    split.
    + rewrite Hl'. rewrite Hl in Hlog.
      destruct Hout as [->| ->]; simpl;
        [by apply rounds_success | by apply rounds_taken].
    + rewrite Htm. done.
Qed.

Lemma reachable_rounds_invariant w :
  reachable is_email now w → rounds_invariant w.
Proof.
  unfold reachable. revert w.
  apply (rtc_ind_r (R := step is_email now) rounds_invariant mounted).
  - split; [apply rounds_nil | done].
  - intros w1 w2 _ Hstep Hinv. by eapply rounds_invariant_step.
Qed.

(** X6.  Submissions never overlap: on every page state that can be
    reached, through any sequence of submissions, resets, edits and
    timer firings, the calls made so far are a sequence of completed
    rounds, each a 1600 ms sleep followed by exactly one outcome (the
    success notification, or the email error and the scroll to the
    email field), closed by one more sleep exactly when [loading] is
    set; and at most one timer is pending, exactly one when [loading]
    is set. *)
Theorem log_in_rounds w :
  reachable is_email now w →
  rounds (loading w) (log w)
  ∧ length (timers w) = (if loading w then 1 else 0).
Proof.
  intros [Hlog Htimers]%reachable_rounds_invariant. split; [done|].
  destruct (timers w) as [|[ms k] [|? ?]]; [|destruct Htimers as [-> _]|done];
    simpl; [by rewrite Htimers | done].
Qed.

(** *** A submission in flight *)

(** While [loading] is set, what the user does changes neither the
    timers, nor the log, nor [loading]. *)
Lemma user_step_in_flight w w' :
  user_step is_email now w w' →
  loading w = true →
  timers w' = timers w ∧ log w' = log w ∧ loading w' = true.
Proof.
  intros Hstep Hl. destruct Hstep as [w|w|w v]; [|done..].
  unfold handleSignup, validationSchema.
  destruct (safeParse is_email (zodSchema now) (values w)) as [data|issues] eqn:Hs.
  - rewrite (handleSubmit_valid _ _ _ _ Hs). by rewrite onSignup_busy.
  - by rewrite (handleSubmit_invalid _ _ _ _ Hs).
Qed.

(** X7.  The outcome of a submission is fixed when it is accepted: once
    validated values have been submitted with [loading] clear, whatever
    the user does before the timer fires (submitting again, editing the
    fields, resetting the form), nothing more is logged, the one pending
    continuation stays the one of this submission, and when resumed it
    shows the success notification if the email that was submitted is
    'awesome@cssninja.io' and sets the email error and scrolls
    otherwise, whatever the form holds by then. *)
Theorem in_flight_outcome_fixed w data w1 :
  safeParse is_email (zodSchema now) (values w) = SafeParseSuccess data →
  loading w = false →
  rtc (user_step is_email now) (handleSignup is_email now w) w1 →
  ∃ s k,
    get data "email" = VString s
    ∧ timers w1 = timers w ++ [(1600%Z, k)]
    ∧ log w1 = log w ++ [Sleep 1600]
    ∧ loading w1 = true
    ∧ ∀ w',
        log (run k w')
        = log w' ++
          (if String.eqb s "awesome@cssninja.io"
           then [NotyfSuccess "You have successfully signed up!"]
           else [SetFieldError "email"
                   "This email is already taken! Tip: use awesome@cssninja.io";
                 ScrollTo "#email"]).
Proof.
  intros Hs Hl Hsteps. destruct (validated_email _ _ Hs) as [s Hemail].
  exists s.
  assert (∃ k, timers (handleSignup is_email now w) = timers w ++ [(1600%Z, k)]
            ∧ log (handleSignup is_email now w) = log w ++ [Sleep 1600]
            ∧ loading (handleSignup is_email now w) = true
            ∧ ∀ w',
                log (run k w')
                = log w' ++
                  (if String.eqb s "awesome@cssninja.io"
                   then [NotyfSuccess "You have successfully signed up!"]
                   else [SetFieldError "email"
                           "This email is already taken! Tip: use awesome@cssninja.io";
                         ScrollTo "#email"])) as (k & Ht & Hlog & Hload & Hk).
  { unfold handleSignup, validationSchema.
    rewrite (handleSubmit_valid _ _ _ _ Hs).
    destruct (onSignup_idle (with_errors ∅ w) data Hl) as (k & -> & Hk).
    exists k. split; [done|]. split; [done|]. split; [done|].
    intros w'. rewrite Hk, Hemail. simpl.
    destruct (String.eqb s "awesome@cssninja.io"); simpl; [done|].
    by rewrite <- app_assoc. }
  exists k. split; [done|].
  assert (timers w1 = timers w ++ [(1600%Z, k)]
          ∧ log w1 = log w ++ [Sleep 1600] ∧ loading w1 = true)
    as (? & ? & ?); [|done].
  revert w1 Hsteps.
  apply (rtc_ind_r (R := user_step is_email now)
           (λ w1, timers w1 = timers w ++ [(1600%Z, k)]
                  ∧ log w1 = log w ++ [Sleep 1600] ∧ loading w1 = true));
    [done|].
  intros w2 w3 _ Hstep (Ht2 & Hlog2 & Hload2).
  destruct (user_step_in_flight _ _ Hstep Hload2) as (Ht3 & Hlog3 & Hload3).
  by rewrite Ht3, Hlog3.
Qed.

End Properties.

(** ** The theorems at concrete inputs *)

Lemma password_min_length_witness :
  prop_get [("password", VString "short")] "password" = VString "short"
  ∧ String.length "short" < 8
  ∧ rejects_with
      (ts_parse (validationSchema emailRegex_test 0)
         (VObject [("password", VString "short")]))
      "password" "Your password should contains at least 8 characters".
Proof.
  split; [reflexivity|]. split; [simpl; lia|].
  apply (password_min_length emailRegex_test 0 [("password", VString "short")] "short");
    [reflexivity | simpl; lia].
Defined.



Lemma interests_between_2_and_3_witness :
  rejects_with
    (ts_parse (validationSchema emailRegex_test 0)
       (VObject [("interests", VArray [VString "Food"])]))
    "interests" "You must select at least 2 terms of service"
  ∧ rejects_with
      (ts_parse (validationSchema emailRegex_test 0)
         (VObject [("interests",
                    VArray [VString "a"; VString "b"; VString "c"; VString "d"])]))
      "interests" "You can select up to 3 terms of service".
Proof.
  split.
  - apply (interests_between_2_and_3 emailRegex_test 0
             [("interests", VArray [VString "Food"])] [VString "Food"]);
      [reflexivity | simpl; lia].
  - apply (interests_between_2_and_3 emailRegex_test 0
             [("interests",
               VArray [VString "a"; VString "b"; VString "c"; VString "d"])]
             [VString "a"; VString "b"; VString "c"; VString "d"]);
      [reflexivity | simpl; lia].
Defined.

Lemma password_confirmation_witness :
  let data :=
    VObject [
      ("email", VString "awesome@cssninja.io");
      ("password", VString "Not$3cret");
      ("passwordCheck", VString "Not$ecret");
      ("birthdate", VNull);
      ("interests", VArray [VString "Food"; VString "Home & Garden"]);
      ("agreeTerms", VBool true);
      ("emailOptin", VBool false)
    ] in
  get data "password" ≠ get data "passwordCheck"
  ∧ has_declared_types data = true
  ∧ rejects_with (ts_parse (validationSchema emailRegex_test 0) data)
      "passwordCheck" "The confirmation does not match the password".
Proof.
  intros data.
  assert (get data "password" ≠ get data "passwordCheck") as Hne
    by (simpl; discriminate).
  split; [exact Hne|]. split; [reflexivity|].
  apply (proj2 (password_confirmation emailRegex_test 0 data Hne)). reflexivity.
Defined.

(** C2 as it is stated fails on an object without an email: the two
    passwords differ and validation fails, yet the object parse is
    aborted by the missing email, the comparison is not run and no error
    is filed under passwordCheck. *)
Lemma password_confirmation_counterexample :
  let data :=
    VObject [
      ("password", VString "Not$3cret");
      ("passwordCheck", VString "Not$ecret");
      ("birthdate", VNull);
      ("interests", VArray [VString "Food"; VString "Home & Garden"]);
      ("agreeTerms", VBool true);
      ("emailOptin", VBool false)
    ] in
  get data "password" ≠ get data "passwordCheck"
  ∧ ts_value (ts_parse (validationSchema emailRegex_test 0) data) = None
  ∧ ts_errors (ts_parse (validationSchema emailRegex_test 0) data)
    = {["email" := ["Enter your email first"]]}
  ∧ ¬ rejects_with (ts_parse (validationSchema emailRegex_test 0) data)
        "passwordCheck" "The confirmation does not match the password".
Proof.
  intros data.
  assert (ts_errors (ts_parse (validationSchema emailRegex_test 0) data)
          = {["email" := ["Enter your email first"]]}) as He
    by (by vm_compute).
  split; [simpl; discriminate|]. split; [by vm_compute|]. split; [exact He|].
  intros (_ & ms & Hms & _). rewrite He in Hms.
  by rewrite lookup_singleton_ne in Hms.
Qed.

Lemma handleSignup_gated_witness :
  let w := with_values signupValues mounted in
  loading w = false
  ∧ (∃ data,
       safeParse emailRegex_test (zodSchema 0) (values w) = SafeParseSuccess data)
  ∧ log (handleSignup emailRegex_test 0 w) = log w ++ [Sleep 1600].
Proof.
  intros w.
  assert (∃ data,
    safeParse emailRegex_test (zodSchema 0) (values w) = SafeParseSuccess data)
    as Hs by (eexists; vm_compute; reflexivity).
  split; [reflexivity|]. split; [exact Hs|].
  exact (proj1 (proj2 (proj2 (handleSignup_gated emailRegex_test 0 w)) eq_refl) Hs).
Defined.

Lemma delay_precedes_outcome_witness :
  let w := with_values signupValues mounted in
  loading w = false
  ∧ ∃ data,
      safeParse emailRegex_test (zodSchema 0) (values w) = SafeParseSuccess data
      ∧ ∃ k,
          log (handleSignup emailRegex_test 0 w) = log w ++ [Sleep 1600]
          ∧ timers (handleSignup emailRegex_test 0 w) = timers w ++ [(1600%Z, k)]
          ∧ ∀ w',
              timers (run k w') = timers w'
              ∧ (log (run k w')
                 = log w' ++ [NotyfSuccess "You have successfully signed up!"]
                 ∨ log (run k w')
                   = log w' ++ [SetFieldError "email"
                                  "This email is already taken! Tip: use awesome@cssninja.io";
                                ScrollTo "#email"]).
Proof.
  intros w. split; [reflexivity|].
  assert (∃ data,
    safeParse emailRegex_test (zodSchema 0) (values w) = SafeParseSuccess data)
    as [data Hs] by (eexists; vm_compute; reflexivity).
  exists data. split; [exact Hs|].
  exact (delay_precedes_outcome emailRegex_test 0 w data Hs eq_refl).
Defined.

(** C5 as it is stated fails on values submitted while another
    submission is in flight: the values pass validation, yet the
    callback returns at the loading guard, so the handler starts no
    sleep (the log keeps the single sleep of the first submission) and
    parks no continuation. *)
Lemma delay_precedes_outcome_counterexample :
  let values0 :=
    VObject [
      ("email", VString "john.doe@gmail.com");
      ("password", VString "Not$3cret");
      ("passwordCheck", VString "Not$3cret");
      ("birthdate", VNull);
      ("interests", VArray [VString "Food"; VString "Home & Garden"]);
      ("agreeTerms", VBool true);
      ("emailOptin", VBool false)
    ] in
  let w := handleSignup emailRegex_test 0 (with_values values0 mounted) in
  reachable emailRegex_test 0 w
  ∧ loading w = true
  ∧ (∃ data,
       safeParse emailRegex_test (zodSchema 0) (values w) = SafeParseSuccess data)
  ∧ log (handleSignup emailRegex_test 0 w) = log w
  ∧ log (handleSignup emailRegex_test 0 w) = [Sleep 1600]
  ∧ timers (handleSignup emailRegex_test 0 w) = timers w.
Proof.
  intros values0 w. split.
  { unfold reachable. eapply rtc_l; [apply step_input|].
    apply rtc_once, step_submit. }
  split; [by vm_compute|]. split; [eexists; by vm_compute|].
  split; [by vm_compute|]. split; by vm_compute.
Qed.

Lemma untouched_form_not_submitted_witness :
  values mounted = initialValues
  ∧ log (handleSignup emailRegex_test 0 mounted) = log mounted
  ∧ timers (handleSignup emailRegex_test 0 mounted) = timers mounted
  ∧ loading (handleSignup emailRegex_test 0 mounted) = loading mounted.
Proof.
  split; [reflexivity|].
  exact (proj2 (untouched_form_not_submitted emailRegex_test 0 mounted eq_refl)).
Defined.

Lemma outcome_by_email_witness :
  let w := with_values signupValues mounted in
  loading w = false
  ∧ ∃ data,
      safeParse emailRegex_test (zodSchema 0) (values w) = SafeParseSuccess data
      ∧ ∃ s k,
          get data "email" = VString s
          ∧ timers (handleSignup emailRegex_test 0 w) = timers w ++ [(1600%Z, k)]
          ∧ ∀ w',
              (s = "awesome@cssninja.io" →
               log (run k w')
               = log w' ++ [NotyfSuccess "You have successfully signed up!"]
               ∧ errors (run k w') = errors w')
              ∧ (s ≠ "awesome@cssninja.io" →
                 log (run k w')
                 = log w' ++ [SetFieldError "email"
                                "This email is already taken! Tip: use awesome@cssninja.io";
                              ScrollTo "#email"]
                 ∧ errors (run k w')
                   = <["email" :=
                         ["This email is already taken! Tip: use awesome@cssninja.io"]]>
                       (errors w')).
Proof.
  intros w. split; [reflexivity|].
  assert (∃ data,
    safeParse emailRegex_test (zodSchema 0) (values w) = SafeParseSuccess data)
    as [data Hs] by (eexists; vm_compute; reflexivity).
  exists data. split; [exact Hs|].
  exact (outcome_by_email emailRegex_test 0 w data Hs eq_refl).
Defined.

(** The page after the well-filled form has been submitted once: the
    first submission is in flight. *)
Lemma submitted_once_reachable :
  reachable emailRegex_test 0
    (handleSignup emailRegex_test 0 (with_values signupValues mounted)).
Proof.
  unfold reachable.
  eapply rtc_l; [apply step_input|]. apply rtc_once, step_submit.
Qed.

(** C7 as it is stated fails on a submission made while another one is
    in flight: the values are validated and the email is
    'awesome@cssninja.io', yet the callback returns at the loading guard;
    this submission makes no call and parks no continuation, so no
    success notification is shown for it. *)
Lemma outcome_by_email_counterexample :
  let w := handleSignup emailRegex_test 0 (with_values signupValues mounted) in
  reachable emailRegex_test 0 w
  ∧ loading w = true
  ∧ (∃ data,
       safeParse emailRegex_test (zodSchema 0) (values w) = SafeParseSuccess data
       ∧ get data "email" = VString "awesome@cssninja.io")
  ∧ log (handleSignup emailRegex_test 0 w) = log w
  ∧ timers (handleSignup emailRegex_test 0 w) = timers w
  ∧ NotyfSuccess "You have successfully signed up!"
    ∉ log (handleSignup emailRegex_test 0 w).
Proof.
  intros w. split; [apply submitted_once_reachable|].
  split; [by vm_compute|].
  split; [eexists; split; by vm_compute|].
  split; [by vm_compute|]. split; [by vm_compute|].
  assert (log (handleSignup emailRegex_test 0 w) = [Sleep 1600]) as ->
    by (by vm_compute).
  by intros [[=]|?%elem_of_nil]%elem_of_cons.
Qed.

Lemma loading_guard_released_witness :
  let w := handleSignup emailRegex_test 0 (with_values signupValues mounted) in
  reachable emailRegex_test 0 w
  ∧ (∀ v, loading w = true → run (onSignup v) w = w)
  ∧ (loading w = false ↔ timers w = []).
Proof.
  intros w.
  pose proof (loading_guard_released emailRegex_test 0 w submitted_once_reachable)
    as (Hbusy & _ & Hiff).
  split; [apply submitted_once_reachable|]. split; [exact Hbusy | exact Hiff].
Defined.

(** ** The further properties at concrete inputs *)

Lemma accepted_iff_rules_witness :
  ∃ v, safeParse emailRegex_test (zodSchema 0) signupValues = SafeParseSuccess v.
Proof.
  apply (proj2 (accepted_iff_rules emailRegex_test 0 signupValues)).
  eexists _,
    {| f_email := "awesome@cssninja.io"; f_password := "Not$3cret";
       f_passwordCheck := "Not$3cret"; f_birthdate := None;
       f_interests := ["Food"; "Home & Garden"]; f_agreeTerms := true;
       f_emailOptin := false |}.
  split; [reflexivity|]. split; [by repeat split | reflexivity].
Defined.

Lemma parsed_values_declared_witness :
  let data :=
    VObject [
      ("email", VString "awesome@cssninja.io");
      ("password", VString "Not$3cret");
      ("passwordCheck", VString "Not$3cret");
      ("birthdate", VNull);
      ("interests", VArray [VString "Food"; VString "Home & Garden"]);
      ("agreeTerms", VBool true);
      ("emailOptin", VBool false);
      ("referrer", VString "newsletter")
    ] in
  ∃ v,
    safeParse emailRegex_test (zodSchema 0) data = SafeParseSuccess v
    ∧ get v "email" = VString "awesome@cssninja.io"
    ∧ get v "referrer" = VUndefined.
Proof.
  intros data.
  assert (∃ v, safeParse emailRegex_test (zodSchema 0) data = SafeParseSuccess v)
    as [v Hs] by (eexists; vm_compute; reflexivity).
  exists v. split; [exact Hs|].
  split.
  - exact (parsed_values_declared emailRegex_test 0 data v Hs "email").
  - exact (parsed_values_declared emailRegex_test 0 data v Hs "referrer").
Defined.

Lemma typed_error_report_witness :
  let f :=
    {| f_email := "awesome@cssninja.io"; f_password := "short";
       f_passwordCheck := "shirt"; f_birthdate := Some 5%Z;
       f_interests := ["Food"]; f_agreeTerms := true; f_emailOptin := true |} in
  let props := [
      ("emailOptin", VBool true);
      ("agreeTerms", VBool true);
      ("interests", VArray [VString "Food"]);
      ("birthdate", VDate (Some 5%Z));
      ("passwordCheck", VString "shirt");
      ("password", VString "short");
      ("email", VString "awesome@cssninja.io")
    ] in
  let errs :=
    ts_errors (ts_parse (validationSchema emailRegex_test 0) (VObject props)) in
  holds props f
  ∧ errs !! "email" = None
  ∧ errs !! "password"
    = Some ["Your password should contains at least 8 characters"]
  ∧ errs !! "passwordCheck"
    = Some ["The confirmation does not match the password"]
  ∧ errs !! "birthdate" = Some ["You cannot be born in the future"]
  ∧ errs !! "agreeTerms" = None
  ∧ errs !! "interests" = Some ["You must select at least 2 terms of service"]
  ∧ errs !! "emailOptin" = None.
Proof.
  intros f props errs.
  assert (holds props f) as Hf by (by repeat split).
  split; [exact Hf|].
  exact (typed_error_report emailRegex_test 0 props f Hf).
Defined.

Lemma birthdate_rule_witness :
  rejects_with
    (ts_parse (validationSchema emailRegex_test 0) (VObject []))
    "birthdate" "Please enter a date"
  ∧ rejects_with
      (ts_parse (validationSchema emailRegex_test 0)
         (VObject [("birthdate", VString "1990-01-01")]))
      "birthdate" "Please enter a valid date"
  ∧ rejects_with
      (ts_parse (validationSchema emailRegex_test 0)
         (VObject [("birthdate", VDate (Some 1%Z))]))
      "birthdate" "You cannot be born in the future"
  ∧ ts_errors
      (ts_parse (validationSchema emailRegex_test 0)
         (VObject [("birthdate", VNull)]))
    !! "birthdate" = None.
Proof.
  split; [|split; [|split]].
  - apply (proj1 (birthdate_rule emailRegex_test 0 [])). reflexivity.
  - apply (proj1 (proj2 (birthdate_rule emailRegex_test 0
                           [("birthdate", VString "1990-01-01")]))).
    simpl. intros Hin.
    repeat (apply elem_of_cons in Hin as [Hin|Hin]; [discriminate Hin|]).
    by apply elem_of_nil in Hin.
  - apply (proj1 (proj2 (proj2 (birthdate_rule emailRegex_test 0
                                  [("birthdate", VDate (Some 1%Z))]))) 1%Z);
      [reflexivity | lia].
  - apply (proj2 (proj2 (proj2 (birthdate_rule emailRegex_test 0
                                  [("birthdate", VNull)])))).
    left. reflexivity.
Defined.

Lemma agreeTerms_rule_witness :
  prop_get [("agreeTerms", VBool false)] "agreeTerms" = VBool false
  ∧ rejects_with
      (ts_parse (validationSchema emailRegex_test 0)
         (VObject [("agreeTerms", VBool false)]))
      "agreeTerms" "You must agree our terms of service".
Proof.
  split; [reflexivity|].
  apply (proj1 (agreeTerms_rule emailRegex_test 0
                  [("agreeTerms", VBool false)] false eq_refl)).
  reflexivity.
Defined.

Lemma log_in_rounds_witness :
  let w := handleSignup emailRegex_test 0 (with_values signupValues mounted) in
  reachable emailRegex_test 0 w
  ∧ rounds (loading w) (log w)
  ∧ length (timers w) = (if loading w then 1 else 0).
Proof.
  intros w. split; [apply submitted_once_reachable|].
  exact (log_in_rounds emailRegex_test 0 w submitted_once_reachable).
Defined.

Lemma in_flight_outcome_fixed_witness :
  let w := with_values signupValues mounted in
  let w1 := handleReset (handleSignup emailRegex_test 0 w) in
  loading w = false
  ∧ rtc (user_step emailRegex_test 0) (handleSignup emailRegex_test 0 w) w1
  ∧ ∃ data s k,
      safeParse emailRegex_test (zodSchema 0) (values w) = SafeParseSuccess data
      ∧ get data "email" = VString s
      ∧ timers w1 = timers w ++ [(1600%Z, k)]
      ∧ log w1 = log w ++ [Sleep 1600]
      ∧ loading w1 = true
      ∧ ∀ w',
          log (run k w')
          = log w' ++
            (if String.eqb s "awesome@cssninja.io"
             then [NotyfSuccess "You have successfully signed up!"]
             else [SetFieldError "email"
                     "This email is already taken! Tip: use awesome@cssninja.io";
                   ScrollTo "#email"]).
Proof.
  intros w w1.
  assert (rtc (user_step emailRegex_test 0) (handleSignup emailRegex_test 0 w) w1)
    as Hsteps by apply rtc_once, user_reset.
  assert (∃ data,
    safeParse emailRegex_test (zodSchema 0) (values w) = SafeParseSuccess data)
    as [data Hs] by (eexists; vm_compute; reflexivity).
  split; [reflexivity|]. split; [exact Hsteps|].
  destruct (in_flight_outcome_fixed emailRegex_test 0 w data w1 Hs eq_refl Hsteps)
    as (s & k & H).
  exists data, s, k. split; [exact Hs | exact H].
Defined.
